(** * yamlpath.merger: a shallow embedding of the YAML document Merger

    The development follows [src/yamlpath/merger.py].  Documents are the
    trees ruamel.yaml hands to the Merger: scalars, sequences and ordered
    mappings, each node carrying the two attachments the Merger reads or
    writes, its anchor and its comment.

    - In-place mutation of the left-hand document is written as explicit
      state passing: every merge function gives back the object that was
      passed as [lhs], as the call leaves it, together with the value the
      call returns.  The two differ when a merge returns its right-hand
      argument.
    - A node that is aliased appears in the tree once for each of its
      positions; the identity of objects is not modelled.  The anchor
      pass picks the nodes it rewrites by the anchor name they carry,
      which the positions of an aliased node have in common.  A write
      into an object therefore shows at one position only where the
      code shows it at every position of that object.  This is exact
      where no object that is written into stands at two positions; the
      statements that depend on it say so: a renaming is stated for
      names that no mapping or sequence passed over by [rename_anchor]
      carries, and the lookups after a mapping merge for merges that
      come to no nested merge.
    - The collaborators that live outside [merger.py] (the policy
      provider, the path resolver, Python's [hash], path escaping) are
      parameters.  A call of [logger.error] with an exit code and an
      exception raised by the interpreter are results of their own.
    - Left out: floating point scalars, mapping keys that are not
      scalars, YAML merge keys ([<<]), and what Python happens to do when
      the two documents differ in kind at a position (see
      [StructuralMismatch]). *)

From Stdlib Require Import ZArith List String Ascii Bool Lia DecimalString.
From stdpp Require Import base list.
Import ListNotations.

Local Open Scope string_scope.
Local Open Scope list_scope.

(** ** Python scalars *)

(** The scalar payloads ruamel.yaml produces (floats are left out). *)
Inductive scalar :=
| PyNone
| PyBool (b : bool)
| PyInt (z : Z)
| PyStr (s : string).

(** Python's [==] on scalars: [bool] is a subclass of [int]. *)
Definition scalar_eqb (x y : scalar) : bool :=
  match x, y with
  | PyNone, PyNone => true
  | PyBool a, PyBool b => Bool.eqb a b
  | PyBool a, PyInt z => Z.eqb z (if a then 1 else 0)
  | PyInt z, PyBool a => Z.eqb z (if a then 1 else 0)
  | PyInt a, PyInt b => Z.eqb a b
  | PyStr a, PyStr b => String.eqb a b
  | _, _ => false
  end.

Definition str_of_Z (z : Z) : string := NilZero.string_of_int (Z.to_int z).
Definition str_of_nat (n : nat) : string := NilZero.string_of_uint (Nat.to_uint n).

(** Python's [str()] on scalars. *)
Definition py_str (x : scalar) : string :=
  match x with
  | PyNone => "None"
  | PyBool true => "True"
  | PyBool false => "False"
  | PyInt z => str_of_Z z
  | PyStr s => s
  end.

(** [s.replace(old, new)] for a one-character [old]. *)
Fixpoint str_replace (old : ascii) (new : string) (s : string) : string :=
  match s with
  | EmptyString => EmptyString
  | String c s' =>
      if Ascii.eqb c old then (new ++ str_replace old new s')%string
      else String c (str_replace old new s')
  end.

(** ** Nodes *)

(** An anchor name as the Merger sees it: [x.anchor.value], which is
    [None] on a ruamel node that carries no anchor. *)
Definition akey := option string.

Definition akey_eqb (x y : akey) : bool :=
  match x, y with
  | None, None => true
  | Some a, Some b => String.eqb a b
  | _, _ => false
  end.

(** The attachments of a node.  [anchor_attr = None] is an object with no
    [anchor] attribute at all (a plain Python [str], [int], ...), so that
    [hasattr(x, "anchor")] is [anchor_attr <> None]. *)
Record attrs := Attrs {
  anchor_attr : option akey;
  comment : option string
}.

(** A plain Python object: no anchor attribute, no comment. *)
Definition plain : attrs := Attrs None None.
(** A ruamel node without anchor. *)
Definition bare : attrs := Attrs (Some None) None.
(** A ruamel node anchored [&name]. *)
Definition anchored (name : string) : attrs := Attrs (Some (Some name)) None.

(** Mapping keys are scalar nodes. *)
Record keynode := Key { key_attrs : attrs; key_value : scalar }.

#[local] Set Warnings "-register-all".

Inductive Node :=
| Scalar (a : attrs) (v : scalar)
| Sequence (a : attrs) (l : list Node)
| Mapping (a : attrs) (m : list (keynode * Node)).

Definition node_attrs (n : Node) : attrs :=
  match n with
  | Scalar a _ | Sequence a _ | Mapping a _ => a
  end.

Definition with_attrs (a : attrs) (n : Node) : Node :=
  match n with
  | Scalar _ v => Scalar a v
  | Sequence _ l => Sequence a l
  | Mapping _ m => Mapping a m
  end.

Definition node_of_key (k : keynode) : Node := Scalar (key_attrs k) (key_value k).

(** Only scalars are hashable. *)
Definition key_of_node (n : Node) : option keynode :=
  match n with
  | Scalar a v => Some (Key a v)
  | _ => None
  end.

Definition is_dict (n : Node) : bool :=
  match n with Mapping _ _ => true | _ => false end.
Definition is_list (n : Node) : bool :=
  match n with Sequence _ _ => true | _ => false end.

(** [hasattr(x, "anchor") and x.anchor.value == anchor]. *)
Definition anchor_is (a : attrs) (anchor : akey) : bool :=
  match anchor_attr a with
  | Some v => akey_eqb v anchor
  | None => false
  end.

(** [x.anchor.value = new_anchor] on an object that has the attribute. *)
Definition set_anchor (new_anchor : akey) (a : attrs) : attrs :=
  Attrs (Some new_anchor) (comment a).

(** [ele.anchor.value if hasattr(ele, "anchor") else None]. *)
Definition anchor_value_or_none (a : attrs) : akey :=
  match anchor_attr a with
  | Some v => v
  | None => None
  end.

(** ** Ordered dictionaries *)

Section OrderedDict.
Context {K V : Type} (eqb : K -> K -> bool).

Fixpoint dict_get (k : K) (d : list (K * V)) : option V :=
  match d with
  | [] => None
  | (k', v) :: d' => if eqb k' k then Some v else dict_get k d'
  end.

Definition dict_has (k : K) (d : list (K * V)) : bool :=
  match dict_get k d with Some _ => true | None => false end.

(** [d[k] = v]: an existing key keeps its position and its key object, a
    new key goes to the end. *)
Fixpoint dict_set (k : K) (v : V) (d : list (K * V)) : list (K * V) :=
  match d with
  | [] => [(k, v)]
  | (k', v') :: d' =>
      if eqb k' k then (k', v) :: d' else (k', v') :: dict_set k v d'
  end.

(** [d.pop(k)]: the entry is removed. *)
Fixpoint dict_del (k : K) (d : list (K * V)) : list (K * V) :=
  match d with
  | [] => []
  | (k', v') :: d' => if eqb k' k then d' else (k', v') :: dict_del k d'
  end.

(** The rebuilding loop of ruamel's [ordereddict.insert]: the old entries
    are written back one by one, the new one just before index [pos]. *)
Fixpoint insert_rebuild (pos : nat) (k : K) (v : V) (index : nat)
         (od acc : list (K * V)) : list (K * V) :=
  match od with
  | [] => acc
  | (old_key, old_val) :: od' =>
      let acc := if Nat.eqb pos index then dict_set k v acc else acc in
      insert_rebuild pos k v (S index) od' (dict_set old_key old_val acc)
  end.

(** [d.insert(pos, k, v)] of ruamel's ordered dictionary. *)
Definition dict_insert (pos : nat) (k : K) (v : V) (d : list (K * V))
  : list (K * V) :=
  if Nat.leb (length d) pos then dict_set k v d
  else insert_rebuild pos k v 0 d [].
End OrderedDict.

Definition key_eqb (k1 k2 : keynode) : bool :=
  scalar_eqb (key_value k1) (key_value k2).

(** The entries of a mapping node. *)
Definition entries := list (keynode * Node).

(** ** Value equality *)

(** Python's [==] on nodes: scalars by payload, sequences element by
    element, mappings as dictionaries (same size, every key of the left
    one present on the right with an equal value).  Anchors and comments
    take no part. *)
Fixpoint py_eq (x y : Node) {struct x} : bool :=
  match x, y with
  | Scalar _ u, Scalar _ v => scalar_eqb u v
  | Sequence _ l1, Sequence _ l2 =>
      (fix eles (l1 l2 : list Node) : bool :=
         match l1, l2 with
         | [], [] => true
         | e1 :: l1', e2 :: l2' => py_eq e1 e2 && eles l1' l2'
         | _, _ => false
         end) l1 l2
  | Mapping _ m1, Mapping _ m2 =>
      Nat.eqb (length m1) (length m2) &&
      (fix items (m : entries) : bool :=
         match m with
         | [] => true
         | (k, v) :: m' =>
             match dict_get key_eqb k m2 with
             | Some v' => py_eq v v'
             | None => false
             end && items m'
         end) m1
  | _, _ => false
  end.

(** [ele in lhs] on a list. *)
Definition py_in (ele : Node) (lhs : list Node) : bool :=
  existsb (fun item => py_eq item ele) lhs.

(** ** Failures *)

Inductive exn := KeyError | TypeError | AttributeError.

(** Modelled from the spec: [ConsolePrinter.error] of [yamlpath.wrappers]
    is not under [src/].  The spec has the error severities of the
    diagnostics sink end the run, and the anchor conflicts fatal; the
    Merger passes an exit code in each of its calls of [logger.error], so
    each of them is the end of the run, [SysExit] with that code and
    message. *)
Inductive failure :=
| SysExit (code : Z) (msg : string)
    (** [logger.error(msg, code)]: the message is reported and the run ends *)
| Raised (e : exn)
    (** an exception of the interpreter, caught nowhere in the Merger *)
| External (msg : string)
    (** a failure raised inside an external collaborator *)
| StructuralMismatch
    (** target and incoming subtree differ in kind where the source
        dispatches without a guard; what Python does from there is an
        accident of dynamic typing and lies outside this model *)
| Diverges.
    (** the bound put on a [while] loop was reached *)

Inductive res (A : Type) :=
| Ok (x : A)
| Err (f : failure).
Arguments Ok {A} x.
Arguments Err {A} f.

Definition bind {A B : Type} (c : res A) (k : A -> res B) : res B :=
  match c with
  | Ok x => k x
  | Err f => Err f
  end.

Notation "'let!' x ':=' c 'in' k" := (bind c (fun x => k))
  (at level 10, x name, c at level 100, k at level 200).

(** ** The policy provider *)

Inductive parentref_t := RefKey (k : keynode) | RefIdx (idx : nat).

Record NodeCoords := mkNodeCoords {
  node : Node;
  parent : option Node;
  parentref : option parentref_t
}.

(** Modelled from the spec: [yamlpath.enums] is not under [src/].  Each
    type has the values the Merger tests for and one more, named as in
    the spec, for the branch taken when none of them applies: [DEEP] for
    mappings, [UNIQUE] for simple lists, [ALL] for arrays of hashes and
    [ABORT] for anchor conflicts. *)
Module HashMergeOpts.
Inductive t := LEFT | RIGHT | DEEP.
End HashMergeOpts.

Module ArrayMergeOpts.
Inductive t := LEFT | RIGHT | UNIQUE | ALL.
End ArrayMergeOpts.

Module AoHMergeOpts.
Inductive t := LEFT | RIGHT | DEEP | UNIQUE | ALL.
End AoHMergeOpts.

Module AnchorConflictResolutions.
Inductive t := RENAME | LEFT | RIGHT | ABORT.
End AnchorConflictResolutions.

(** The lookups the Merger makes on [self.config]. *)
Record MergerConfig := {
  hash_merge_mode : NodeCoords -> HashMergeOpts.t;
  array_merge_mode : NodeCoords -> ArrayMergeOpts.t;
  aoh_merge_mode : NodeCoords -> AoHMergeOpts.t;
  aoh_merge_key : NodeCoords -> Node -> scalar;
  anchor_merge_mode : AnchorConflictResolutions.t
}.

(** Modelled from the spec: [yamlpath.func.append_list_element] is not
    under [src/].  The element is appended and, when an anchor name is
    passed, carries that name. *)
Definition append_list_element (data : list Node) (value : Node)
           (anchor : akey) : list Node :=
  data ++ [match anchor with
           | Some name => with_attrs (set_anchor (Some name) (node_attrs value)) value
           | None => value
           end].

(** What a merge call leaves behind: the object that was passed as [lhs],
    as the call mutated it in place, and the value the call returned. *)
Record outcome := Out { lhs_after : Node; returned : Node }.

(** ** The deep merge engine *)

Section Engine.
Variable config : MergerConfig.

(** *** Merger._merge_simple_lists *)

Fixpoint simple_lists_loop (append_all : bool) (rhs lhs : list Node)
  : list Node :=
  match rhs with
  | [] => lhs
  | ele :: rhs' =>
      let lhs :=
        if append_all || negb (py_in ele lhs)
        then append_list_element lhs ele (anchor_value_or_none (node_attrs ele))
        else lhs in
      simple_lists_loop append_all rhs' lhs
  end.

Definition _merge_simple_lists (lhs rhs : Node) (node_coord : NodeCoords)
           (path : string) : res outcome :=
  let merge_mode := array_merge_mode config node_coord in
  match merge_mode with
  | ArrayMergeOpts.LEFT => Ok (Out lhs lhs)
  | ArrayMergeOpts.RIGHT => Ok (Out lhs rhs)
  | _ =>
      let append_all :=
        match merge_mode with ArrayMergeOpts.ALL => true | _ => false end in
      match rhs with
      | Sequence _ [] => Ok (Out lhs lhs)
      | Sequence _ rl =>
          match lhs with
          | Sequence la ll =>
              let lhs' := Sequence la (simple_lists_loop append_all rl ll) in
              Ok (Out lhs' lhs')
          | _ => Err StructuralMismatch
          end
      | _ => Err StructuralMismatch
      end
  end.

(** *** The recursive merges, first with their recursive calls left open *)

Section Open.
Variables merge_dicts merge_lists :
  Node -> Node -> option Node -> option parentref_t -> string -> res outcome.

(** [for lhs_hash in lhs: if ...: merge; merged_hash = True; break] of
    the array-of-hashes merge.  The result is [None] when the loop
    ends with [merged_hash] still false. *)
Fixpoint aoh_deep_scan (merge : Node -> res outcome) (id_key : scalar)
         (rhs_key_value : Node) (lhs : list Node)
  : res (option (list Node)) :=
  match lhs with
  | [] => Ok None
  | lhs_hash :: rest =>
      match lhs_hash with
      | Mapping _ lm =>
          if match dict_get key_eqb (Key plain id_key) lm with
             | Some v => py_eq v rhs_key_value
             | None => false
             end
          then
            let! r := merge lhs_hash in
            Ok (Some (lhs_after r :: rest))
          else
            let! t := aoh_deep_scan merge id_key rhs_key_value rest in
            Ok (option_map (cons lhs_hash) t)
      | _ => Err StructuralMismatch
      end
  end.

(** [ele[id_key]]. *)
Definition record_get (ele : Node) (id_key : scalar) : res Node :=
  match ele with
  | Mapping _ em =>
      match dict_get key_eqb (Key plain id_key) em with
      | Some v => Ok v
      | None => Err (Raised KeyError)
      end
  | _ => Err StructuralMismatch
  end.

(** The body of [for idx, ele in enumerate(rhs)] in
    [_merge_arrays_of_hashes]. *)
Definition aoh_step (merge_mode : AoHMergeOpts.t) (rhs_node : Node)
           (path : string) (idx : nat) (ele : Node) (lhs : list Node)
  : res (list Node) :=
  let path_next := (path ++ "[" ++ str_of_nat idx ++ "]")%string in
  let node_next := mkNodeCoords ele (Some rhs_node) (Some (RefIdx idx)) in
  let own_anchor := anchor_value_or_none (node_attrs ele) in
  match merge_mode with
  | AoHMergeOpts.DEEP =>
      let id_key := aoh_merge_key config node_next ele in
      let! rhs_key_value := record_get ele id_key in
      let! merged_hash :=
        aoh_deep_scan
          (fun lhs_hash =>
             merge_dicts lhs_hash ele (Some rhs_node) (Some (RefIdx idx))
                         path_next)
          id_key rhs_key_value lhs in
      match merged_hash with
      | Some lhs' => Ok lhs'
      | None => Ok (append_list_element lhs ele own_anchor)
      end
  | AoHMergeOpts.UNIQUE =>
      if negb (py_in ele lhs)
      then Ok (append_list_element lhs ele own_anchor)
      else Ok lhs
  | _ => Ok (append_list_element lhs ele own_anchor)
  end.

Fixpoint aoh_loop (merge_mode : AoHMergeOpts.t) (rhs_node : Node)
         (path : string) (idx : nat) (rhs lhs : list Node)
  : res (list Node) :=
  match rhs with
  | [] => Ok lhs
  | ele :: rhs' =>
      let! lhs := aoh_step merge_mode rhs_node path idx ele lhs in
      aoh_loop merge_mode rhs_node path (S idx) rhs' lhs
  end.

Definition merge_arrays_of_hashes_open (lhs rhs : Node)
           (node_coord : NodeCoords) (path : string) : res outcome :=
  let merge_mode := aoh_merge_mode config node_coord in
  match merge_mode with
  | AoHMergeOpts.LEFT => Ok (Out lhs lhs)
  | AoHMergeOpts.RIGHT => Ok (Out lhs rhs)
  | _ =>
      match rhs with
      | Sequence _ [] => Ok (Out lhs lhs)
      | Sequence _ rl =>
          match lhs with
          | Sequence la ll =>
              let! ll' := aoh_loop merge_mode rhs path 0 rl ll in
              Ok (Out (Sequence la ll') (Sequence la ll'))
          | _ => Err StructuralMismatch
          end
      | _ => Err StructuralMismatch
      end
  end.

Definition merge_lists_open (lhs rhs : Node) (parent : option Node)
           (parentref : option parentref_t) (path : string) : res outcome :=
  let node_coord := mkNodeCoords rhs parent parentref in
  match rhs with
  | Sequence _ (first :: _) =>
      if is_dict first
      then merge_arrays_of_hashes_open lhs rhs node_coord path
      else _merge_simple_lists lhs rhs node_coord path
  | Sequence _ [] => Ok (Out lhs lhs)
  | _ => Err StructuralMismatch
  end.

(** [lhs[key]]. *)
Definition dict_item (lhs : entries) (key : keynode) : res Node :=
  match dict_get key_eqb key lhs with
  | Some v => Ok v
  | None => Err (Raised KeyError)
  end.

(** [for b_key, b_val in buffer: lhs.insert(buffer_pos, b_key, b_val)]. *)
Definition flush_buffer (buffer_pos : nat) (buffer lhs : entries) : entries :=
  fold_left
    (fun lhs b => dict_insert key_eqb buffer_pos (fst b) (snd b) lhs)
    buffer lhs.

(** [for b_key, b_val in buffer: lhs[b_key] = b_val]. *)
Definition write_remaining (buffer lhs : entries) : entries :=
  fold_left (fun lhs b => dict_set key_eqb (fst b) (snd b) lhs) buffer lhs.

(** The deep merge loop of [_merge_dicts]: [for key, val in
    rhs.items()], then the write of what is left in the buffer. *)
Fixpoint merge_dicts_loop (rhs_node : Node) (path : string)
         (rhs : entries) (lhs buffer : entries) (buffer_pos : nat)
  : res entries :=
  match rhs with
  | [] => Ok (write_remaining buffer lhs)
  | (key, val) :: rhs' =>
      let path_next :=
        (path ++ "/" ++ str_replace "/" "\/" (py_str (key_value key)))%string in
      if dict_has key_eqb key lhs then
        let lhs := flush_buffer buffer_pos buffer lhs in
        let! new_val :=
          match val with
          | Mapping _ _ =>
              let! cur := dict_item lhs key in
              let! r := merge_dicts cur val (Some rhs_node)
                                    (Some (RefKey key)) path_next in
              Ok (returned r)
          | Sequence _ _ =>
              let! cur := dict_item lhs key in
              let! r := merge_lists cur val (Some rhs_node)
                                    (Some (RefKey key)) path_next in
              Ok (returned r)
          | Scalar _ _ => Ok val
          end in
        merge_dicts_loop rhs_node path rhs'
                         (dict_set key_eqb key new_val lhs) [] (S buffer_pos)
      else
        merge_dicts_loop rhs_node path rhs' lhs (buffer ++ [(key, val)])
                         (S buffer_pos)
  end.

Definition merge_dicts_open (lhs rhs : Node) (parent : option Node)
           (parentref : option parentref_t) (path : string) : res outcome :=
  let node_coord := mkNodeCoords rhs parent parentref in
  let deep :=
    match rhs with
    | Mapping _ [] => Ok (Out lhs lhs)
    | Mapping _ rm =>
        match lhs with
        | Mapping la lm =>
            let! lm' := merge_dicts_loop rhs path rm lm [] 0 in
            Ok (Out (Mapping la lm') (Mapping la lm'))
        | _ => Err StructuralMismatch
        end
    | _ => Err (Raised AttributeError)
    end in
  if Nat.ltb 0 (String.length path) then
    match hash_merge_mode config node_coord with
    | HashMergeOpts.LEFT => Ok (Out lhs lhs)
    | HashMergeOpts.RIGHT => Ok (Out lhs rhs)
    | HashMergeOpts.DEEP => deep
    end
  else deep.
End Open.

(** *** Merger._merge_dicts and Merger._merge_lists *)

Fixpoint _merge_dicts (lhs rhs : Node) (parent : option Node)
         (parentref : option parentref_t) (path : string) {struct rhs}
  : res outcome :=
  merge_dicts_open _merge_dicts _merge_lists lhs rhs parent parentref path
with _merge_lists (lhs rhs : Node) (parent : option Node)
         (parentref : option parentref_t) (path : string) {struct rhs}
  : res outcome :=
  merge_lists_open _merge_dicts lhs rhs parent parentref path.

Definition _merge_arrays_of_hashes := merge_arrays_of_hashes_open _merge_dicts.
End Engine.

(** ** Anchors *)

(** The name-to-node dictionary filled by the anchor scan.  A Python
    dictionary keeps a key where it was first inserted, so the order of
    the list is the order in which the names were first met. *)
Definition adict := list (akey * Node).

(** [if hasattr(x, "anchor") and x.anchor.value is not None:
    anchors[x.anchor.value] = x]. *)
Definition record_named (x : Node) (anchors : adict) : adict :=
  match anchor_attr (node_attrs x) with
  | Some (Some name) => dict_set akey_eqb (Some name) x anchors
  | _ => anchors
  end.

(** *** Merger.scan_for_anchors *)
Fixpoint scan_for_anchors (dom : Node) (anchors : adict) {struct dom} : adict :=
  match dom with
  | Mapping _ m =>
      fold_left
        (fun anchors kv =>
           let anchors := record_named (node_of_key (fst kv)) anchors in
           let anchors := record_named (snd kv) anchors in
           match snd kv with
           | Scalar _ _ => anchors
           | _ => scan_for_anchors (snd kv) anchors
           end)
        m anchors
  | Sequence _ l =>
      fold_left (fun anchors ele => scan_for_anchors ele anchors) l anchors
  | Scalar a _ =>
      match anchor_attr a with
      | Some v => dict_set akey_eqb v dom anchors
      | None => anchors
      end
  end.

(** [str(anchor)] as [format] renders it. *)
Definition akey_str (anchor : akey) : string :=
  match anchor with
  | Some s => s
  | None => "None"
  end.

Definition rename_attrs (anchor new_anchor : akey) (a : attrs) : attrs :=
  if anchor_is a anchor then set_anchor new_anchor a else a.

(** *** Merger.rename_anchor *)
Fixpoint rename_anchor (dom : Node) (anchor new_anchor : akey) {struct dom}
  : Node :=
  match dom with
  | Mapping a m =>
      Mapping a
        (map (fun kv =>
                (Key (rename_attrs anchor new_anchor (key_attrs (fst kv)))
                     (key_value (fst kv)),
                 with_attrs
                   (rename_attrs anchor new_anchor (node_attrs (snd kv)))
                   (rename_anchor (snd kv) anchor new_anchor)))
             m)
  | Sequence a l =>
      Sequence a (map (fun ele => rename_anchor ele anchor new_anchor) l)
  | Scalar a v => Scalar (rename_attrs anchor new_anchor a) v
  end.

Definition strip_comment (a : attrs) : attrs := Attrs (anchor_attr a) None.

(** *** Merger.delete_all_comments *)
Fixpoint delete_all_comments (dom : Node) : Node :=
  match dom with
  | Mapping a m =>
      Mapping (strip_comment a)
        (map (fun kv =>
                (Key (strip_comment (key_attrs (fst kv))) (key_value (fst kv)),
                 delete_all_comments (snd kv)))
             m)
  | Sequence a l => Sequence (strip_comment a) (map delete_all_comments l)
  | Scalar a v => Scalar (strip_comment a) v
  end.

(** The collaborators of the Merger that live outside [merger.py]. *)
Class Externals := {
  (** Python's [hash] on an anchor name *)
  py_hash : akey -> Z;
  (** [yamlpath.func.escape_path_section(_, PathSeperators.FSLASH)] *)
  escape_path_section : string -> string;
  (** [Processor(logger, dom).get_nodes(path, mustexist=True)] *)
  get_nodes : Node -> option string -> res (list NodeCoords);
  (** [MergerConfig.prepare] *)
  prepare : MergerConfig -> Node -> MergerConfig
}.

(** Python's [None]. *)
Definition py_none : Node := Scalar plain PyNone.

(** Run the pending computations of a list in order. *)
Fixpoint sequence_res {A : Type} (l : list (res A)) : res (list A) :=
  match l with
  | [] => Ok []
  | c :: l' =>
      let! x := c in
      let! xs := sequence_res l' in
      Ok (x :: xs)
  end.

Fixpoint sequence_values {K A : Type} (l : list (K * res A)) : res (list (K * A)) :=
  match l with
  | [] => Ok []
  | (k, c) :: l' =>
      let! x := c in
      let! xs := sequence_values l' in
      Ok ((k, x) :: xs)
  end.

(** [enumerate]. *)
Fixpoint enumerate_from {A : Type} (idx : nat) (l : list A) : list (nat * A) :=
  match l with
  | [] => []
  | x :: l' => (idx, x) :: enumerate_from (S idx) l'
  end.

Section Resolver.
Context `{Externals}.

(** *** Merger._calc_unique_anchor *)

(** One round of the [while] loop. *)
Definition next_anchor (anchor : akey) : akey :=
  Some (akey_str anchor ++ "_"
          ++ str_replace "-" "_" (str_of_Z (py_hash anchor)))%string.

(** The [while anchor in known_anchors] loop, with a bound on its
    rounds. *)
Fixpoint calc_unique_loop (fuel : nat) (anchor : akey) (known : list akey)
  : option akey :=
  if existsb (akey_eqb anchor) known then
    match fuel with
    | O => None
    | S fuel' => calc_unique_loop fuel' (next_anchor anchor) known
    end
  else Some anchor.

Definition _calc_unique_anchor (anchor : akey) (known_anchors : list akey)
  : option akey :=
  calc_unique_loop (length known_anchors) anchor known_anchors.

(** *** Merger.search_for_anchor *)

(** Both [for] loops of the source return from their first round. *)
Fixpoint search_for_anchor (dom : Node) (anchor : akey) (path : string)
         {struct dom} : option string :=
  match dom with
  | Mapping _ m =>
      match m with
      | (key, val) :: _ =>
          let path_next :=
            (path ++ "/" ++ escape_path_section (py_str (key_value key)))%string in
          if anchor_is (key_attrs key) anchor
          then Some (path ++ "/&" ++ akey_str anchor)%string
          else if anchor_is (node_attrs val) anchor
          then Some path_next
          else search_for_anchor val anchor path_next
      | [] => None
      end
  | Sequence _ l =>
      match l with
      | ele :: _ =>
          search_for_anchor ele anchor (path ++ "[" ++ str_of_nat 0 ++ "]")%string
      | [] => None
      end
  | Scalar a _ => if anchor_is a anchor then Some path else None
  end.

(** *** Merger._overwrite_aliased_values *)

(** [data.insert(idx, repl_node, data.pop(key))]. *)
Definition replace_key {V : Type} (repl_node : Node) (data : list (keynode * V))
           (hit : nat * keynode) : res (list (keynode * V)) :=
  match dict_get key_eqb (snd hit) data with
  | None => Err (Raised KeyError)
  | Some val =>
      match key_of_node repl_node with
      | None => Err (Raised TypeError)
      | Some repl_key =>
          Ok (dict_insert key_eqb (fst hit) repl_key val
                          (dict_del key_eqb (snd hit) data))
      end
  end.

(** The first loop of [recursive_anchor_replace] on a mapping: the keys
    that carry the anchor are listed with their positions, then swapped
    for the replacement node one by one. *)
Definition replace_keys {V : Type} (anchor_val : akey) (repl_node : Node)
           (data : list (keynode * V)) : res (list (keynode * V)) :=
  fold_left
    (fun acc hit => let! data := acc in replace_key repl_node data hit)
    (List.filter (fun hit => anchor_is (key_attrs (snd hit)) anchor_val)
            (enumerate_from 0 (map fst data)))
    (Ok data).

(** The inner function of [_overwrite_aliased_values].  On a mapping the
    second loop runs over the entries as the first loop left them; the
    first loop only moves values around, so what the second loop does to
    each value is attached to the value beforehand and carried out, in
    the final order of the entries, once the keys are swapped. *)
Fixpoint recursive_anchor_replace (data : Node) (anchor_val : akey)
         (repl_node : Node) {struct data} : res Node :=
  match data with
  | Mapping a m =>
      let pending :=
        map (fun kv =>
               (fst kv,
                if anchor_is (node_attrs (snd kv)) anchor_val
                then Ok repl_node
                else recursive_anchor_replace (snd kv) anchor_val repl_node))
            m in
      let! swapped := replace_keys anchor_val repl_node pending in
      let! m' := sequence_values swapped in
      Ok (Mapping a m')
  | Sequence a l =>
      let! l' :=
        sequence_res
          (map (fun ele =>
                  if anchor_is (node_attrs ele) anchor_val
                  then Ok repl_node
                  else recursive_anchor_replace ele anchor_val repl_node)
               l) in
      Ok (Sequence a l')
  | Scalar _ _ => Ok data
  end.

Definition _overwrite_aliased_values (source_dom target_dom : Node)
           (anchor : akey) : res Node :=
  let source_path := search_for_anchor source_dom anchor "" in
  let! coords := get_nodes source_dom source_path in
  let source_node :=
    match coords with
    | node_coord :: _ => node node_coord
    | [] => py_none
    end in
  recursive_anchor_replace target_dom anchor source_node.

(** *** Merger._resolve_anchor_conflicts *)

Definition anchor_item (anchors : adict) (anchor : akey) : res Node :=
  match dict_get akey_eqb anchor anchors with
  | Some x => Ok x
  | None => Err (Raised KeyError)
  end.

Definition dict_anchor_msg : string :=
  "Dictionary-based anchor conflict resolution is not yet implemented.".
Definition list_anchor_msg : string :=
  "List-based anchor conflict resolution is not yet implemented.".
Definition abort_msg (anchor : akey) : string :=
  ("Aborting due to anchor conflict, " ++ akey_str anchor)%string.

(** One round of the loop over the anchors found on both sides.  The
    two documents, [self.data] and [rhs], are the state. *)
Definition resolve_conflict (config : MergerConfig)
           (lhs_anchors rhs_anchors : adict) (docs : Node * Node)
           (anchor : akey) : res (Node * Node) :=
  let! prime_alias := anchor_item lhs_anchors anchor in
  let! reader_alias := anchor_item rhs_anchors anchor in
  let conflict_mode := anchor_merge_mode config in
  match prime_alias with
  | Mapping _ _ => Err (SysExit 142 dict_anchor_msg)
  | Sequence _ _ => Err (SysExit 142 list_anchor_msg)
  | Scalar _ _ =>
      if negb (py_eq prime_alias reader_alias) then
        match conflict_mode with
        | AnchorConflictResolutions.RENAME =>
            match _calc_unique_anchor
                    anchor (map fst lhs_anchors ++ map fst rhs_anchors) with
            | Some new_anchor =>
                Ok (fst docs, rename_anchor (snd docs) anchor new_anchor)
            | None => Err Diverges
            end
        | AnchorConflictResolutions.LEFT =>
            let! rhs := _overwrite_aliased_values (fst docs) (snd docs) anchor in
            Ok (fst docs, rhs)
        | AnchorConflictResolutions.RIGHT =>
            let! data := _overwrite_aliased_values (snd docs) (fst docs) anchor in
            Ok (data, snd docs)
        | AnchorConflictResolutions.ABORT =>
            Err (SysExit 4 (abort_msg anchor))
        end
      else Ok docs
  end.

(** The loop stops at the first round that fails; the documents are
    given back as the last completed round left them.  That is what
    the code leaves when the failing round is a call of [logger.error],
    which comes before any write of the round (the rounds under RENAME
    and under ABORT fail in no other way).  A round under LEFT or RIGHT
    that raises inside [_overwrite_aliased_values] may have popped a key
    of the document it rewrites before it raises; that half-done rewrite
    is not shown. *)
Fixpoint resolve_loop (config : MergerConfig) (lhs_anchors rhs_anchors : adict)
         (conflicts : list akey) (docs : Node * Node)
  : (Node * Node) * option failure :=
  match conflicts with
  | [] => (docs, None)
  | anchor :: conflicts' =>
      match resolve_conflict config lhs_anchors rhs_anchors docs anchor with
      | Ok docs' => resolve_loop config lhs_anchors rhs_anchors conflicts' docs'
      | Err f => (docs, Some f)
      end
  end.

(** [[anchor for anchor in rhs_anchors if anchor in lhs_anchors]]. *)
Definition shared_anchors (lhs_anchors rhs_anchors : adict) : list akey :=
  List.filter (fun anchor => dict_has akey_eqb anchor lhs_anchors)
         (map fst rhs_anchors).

Record Merger := { data : Node; config : MergerConfig }.

Definition _resolve_anchor_conflicts (self : Merger) (rhs : Node)
  : (Node * Node) * option failure :=
  let lhs_anchors := scan_for_anchors (data self) [] in
  let rhs_anchors := scan_for_anchors rhs [] in
  resolve_loop (config self) lhs_anchors rhs_anchors
               (shared_anchors lhs_anchors rhs_anchors) (data self, rhs).

(** *** Merger.merge_with *)

Inductive merge_outcome :=
| Merged (self : Merger)
    (** the call returned; [self] as it stands *)
| AnchorFailure (f : failure) (data : Node)
    (** the anchor pass failed, no structural merge was dispatched;
        [self.data] as the last completed round of the pass left it *)
| MergeFailure (f : failure).
    (** the structural merge failed part-way *)

Definition merge_with (self : Merger) (rhs : Node) : merge_outcome :=
  let rhs := delete_all_comments rhs in
  match _resolve_anchor_conflicts self rhs with
  | (docs, Some f) => AnchorFailure f (fst docs)
  | (docs, None) =>
      let data := fst docs in
      let rhs := snd docs in
      let config := prepare (config self) rhs in
      match rhs with
      | Mapping _ _ =>
          match _merge_dicts config data rhs None None "" with
          | Ok r => Merged {| data := returned r; config := config |}
          | Err f => MergeFailure f
          end
      | Sequence _ _ =>
          match _merge_lists config data rhs None None "" with
          | Ok r => Merged {| data := returned r; config := config |}
          | Err f => MergeFailure f
          end
      | Scalar _ _ => Merged {| data := data; config := config |}
      end
  end.
End Resolver.

(** ** Reference notions used in the statements *)

(** The dictionary writes [anchors[name] = x] of the anchor scan, in the
    order in which the scan makes them.  This follows the scan, what it
    passes over included, and serves the proofs; the nodes of a
    document that carry a name are [occurrences]. *)
Definition named_write (x : Node) : list (akey * Node) :=
  match anchor_attr (node_attrs x) with
  | Some (Some name) => [(Some name, x)]
  | _ => []
  end.

Fixpoint anchor_writes (dom : Node) : list (akey * Node) :=
  match dom with
  | Mapping _ m =>
      flat_map
        (fun kv =>
           named_write (node_of_key (fst kv)) ++ named_write (snd kv)
             ++ match snd kv with
                | Scalar _ _ => []
                | _ => anchor_writes (snd kv)
                end)
        m
  | Sequence _ l => flat_map anchor_writes l
  | Scalar a _ =>
      match anchor_attr a with
      | Some v => [(v, dom)]
      | None => []
      end
  end.

(** The first and the last node written under a name. *)
Definition first_write (name : akey) (writes : list (akey * Node)) : option Node :=
  option_map snd (find (fun w => akey_eqb (fst w) name) writes).

Definition last_write (name : akey) (writes : list (akey * Node)) : option Node :=
  first_write name (rev writes).

(** The incoming elements a UNIQUE merge keeps: an element is dropped when
    it is value-equal to an element of the target as it stands when the
    element is reached, that is to an element the target had from the
    start or to an incoming element kept before. *)
Fixpoint unique_additions (target incoming : list Node) : list Node :=
  match incoming with
  | [] => []
  | ele :: rest =>
      if py_in ele target then unique_additions target rest
      else ele :: unique_additions (target ++ [ele]) rest
  end.

(** The incoming elements not value-equal to any element the target had
    from the start. *)
Definition new_to_target (target incoming : list Node) : list Node :=
  List.filter (fun ele => negb (py_in ele target)) incoming.

(** A target record carries [wanted] under the identity key. *)
Definition has_id_value (id_key : scalar) (wanted : Node) (record : Node) : bool :=
  match record with
  | Mapping _ lm =>
      match dict_get key_eqb (Key plain id_key) lm with
      | Some v => py_eq v wanted
      | None => false
      end
  | _ => false
  end.

(** What the loop of [_merge_arrays_of_hashes] does under DEEP with one
    incoming record, told with list search and update: the mapping merge
    is run on the first target record with the same value under the
    identity key and the incoming record, and the target record as the
    call leaves it stays where it was ([lhs_after]; what the call
    returns is bound to the loop variable and lost); without such a
    record the incoming one is appended. *)
Definition aoh_deep_record (config : MergerConfig) (rhs_node : Node)
           (path : string) (idx : nat) (ele : Node) (target : list Node)
  : res (list Node) :=
  let id_key :=
    aoh_merge_key config (mkNodeCoords ele (Some rhs_node) (Some (RefIdx idx))) ele in
  let! wanted := record_get ele id_key in
  match list_find (fun record => has_id_value id_key wanted record = true) target with
  | Some (i, record) =>
      let! r := _merge_dicts config record ele (Some rhs_node) (Some (RefIdx idx))
                             (path ++ "[" ++ str_of_nat idx ++ "]")%string in
      Ok (<[i := lhs_after r]> target)
  | None => Ok (target ++ [ele])
  end.

Fixpoint aoh_deep_records (config : MergerConfig) (rhs_node : Node)
         (path : string) (idx : nat) (incoming target : list Node)
  : res (list Node) :=
  match incoming with
  | [] => Ok target
  | ele :: rest =>
      let! target := aoh_deep_record config rhs_node path idx ele target in
      aoh_deep_records config rhs_node path (S idx) rest target
  end.

(** The names of the keys of a mapping, in order. *)
Definition key_names (n : Node) : list string :=
  match n with
  | Mapping _ m => map (fun kv => py_str (key_value (fst kv))) m
  | _ => []
  end.

(** ** Documents of the examples *)

Module Doc.
Definition key (s : string) : keynode := Key plain (PyStr s).
Definition int (z : Z) : Node := Scalar plain (PyInt z).
Definition str (s : string) : Node := Scalar plain (PyStr s).
Definition map (m : entries) : Node := Mapping bare m.
Definition seq (l : list Node) : Node := Sequence bare l.
(** [&name value] *)
Definition anchored_int (name : string) (z : Z) : Node :=
  Scalar (anchored name) (PyInt z).
End Doc.

(** A policy that answers DEEP, ALL, DEEP with identity key [id], and the
    given anchor conflict mode, everywhere. *)
Definition default_config (mode : AnchorConflictResolutions.t) : MergerConfig :=
  {| hash_merge_mode := fun _ => HashMergeOpts.DEEP;
     array_merge_mode := fun _ => ArrayMergeOpts.ALL;
     aoh_merge_mode := fun _ => AoHMergeOpts.DEEP;
     aoh_merge_key := fun _ _ => PyStr "id";
     anchor_merge_mode := mode |}.

(** Collaborators for the examples: a constant hash, no escaping, a path
    resolver that needs a path and then answers with the document root,
    and a [prepare] that leaves the policy as it is. *)
Definition sample_externals : Externals :=
  {| py_hash := fun _ => (-42)%Z;
     escape_path_section := fun s => s;
     get_nodes := fun dom path =>
                    match path with
                    | Some _ => Ok [mkNodeCoords dom None None]
                    | None => Err (External "no path to resolve")
                    end;
     prepare := fun config _ => config |}.

(** Writing a list of entries one after the other. *)
Definition write_all (writes : list (akey * Node)) (anchors : adict) : adict :=
  fold_left (fun d w => dict_set akey_eqb (fst w) (snd w) d) writes anchors.

(** ** Induction over documents *)

Section NodeInduction.
Variable P : Node -> Prop.
Hypothesis P_scalar : forall a v, P (Scalar a v).
Hypothesis P_sequence : forall a l, Forall P l -> P (Sequence a l).
Hypothesis P_mapping :
  forall a m, Forall (fun kv => P (snd kv)) m -> P (Mapping a m).

Fixpoint Node_nested_ind (n : Node) : P n :=
  match n with
  | Scalar a v => P_scalar a v
  | Sequence a l =>
      P_sequence a l
        ((fix all (l : list Node) : Forall P l :=
            match l with
            | [] => @List.Forall_nil _ _
            | x :: l' => @List.Forall_cons _ _ x _ (Node_nested_ind x) (all l')
            end) l)
  | Mapping a m =>
      P_mapping a m
        ((fix all (m : entries) : Forall (fun kv => P (snd kv)) m :=
            match m with
            | [] => @List.Forall_nil _ _
            | kv :: m' => @List.Forall_cons _ _ kv _ (Node_nested_ind (snd kv)) (all m')
            end) m)
  end.
End NodeInduction.

(** The same policy with UNIQUE for simple lists. *)
Definition unique_lists_config : MergerConfig :=
  {| hash_merge_mode := fun _ => HashMergeOpts.DEEP;
     array_merge_mode := fun _ => ArrayMergeOpts.UNIQUE;
     aoh_merge_mode := fun _ => AoHMergeOpts.DEEP;
     aoh_merge_key := fun _ _ => PyStr "id";
     anchor_merge_mode := AnchorConflictResolutions.ABORT |}.

(** The coordinates of a document root. *)
Definition root_coords (dom : Node) : NodeCoords := mkNodeCoords dom None None.

(** The length of an anchor name as [format] renders it: the measure that
    bounds the rounds of [_calc_unique_anchor]. *)
Definition anchor_len (anchor : akey) : nat := String.length (akey_str anchor).

(** Every key of [buffer] is absent from [lhs] and from the entries of
    [buffer] before it. *)
Fixpoint all_fresh (buffer lhs : entries) : Prop :=
  match buffer with
  | [] => True
  | (k, v) :: buffer' =>
      dict_has key_eqb k lhs = false /\ all_fresh buffer' (lhs ++ [(k, v)])
  end.

(** A representative of the class of a scalar under Python's [==]:
    booleans are the integers 0 and 1. *)
Definition key_norm (x : scalar) : scalar :=
  match x with
  | PyBool b => PyInt (if b then 1 else 0)
  | _ => x
  end.

(** The key of an entry, up to Python's [==]. *)
Definition entry_id (kv : keynode * Node) : scalar :=
  key_norm (key_value (fst kv)).

(** The node [repl_node] put in every value position and in every
    sequence element that carries the anchor; a node that is replaced is
    not gone into. *)
Fixpoint substitute (anchor_val : akey) (repl_node : Node) (data : Node)
  : Node :=
  match data with
  | Mapping a m =>
      Mapping a
        (map (fun kv =>
                (fst kv,
                 if anchor_is (node_attrs (snd kv)) anchor_val then repl_node
                 else substitute anchor_val repl_node (snd kv)))
             m)
  | Sequence a l =>
      Sequence a
        (map (fun ele =>
                if anchor_is (node_attrs ele) anchor_val then repl_node
                else substitute anchor_val repl_node ele)
             l)
  | Scalar _ _ => data
  end.

(** No key that the substitution meets carries the anchor. *)
Fixpoint keys_clear (anchor_val : akey) (data : Node) : bool :=
  match data with
  | Mapping _ m =>
      forallb
        (fun kv =>
           negb (anchor_is (key_attrs (fst kv)) anchor_val)
           && (anchor_is (node_attrs (snd kv)) anchor_val
               || keys_clear anchor_val (snd kv)))
        m
  | Sequence _ l =>
      forallb
        (fun ele =>
           anchor_is (node_attrs ele) anchor_val || keys_clear anchor_val ele)
        l
  | Scalar _ _ => true
  end.

(** ** Further reference notions *)

Definition no_comment (a : attrs) : bool :=
  match comment a with
  | None => true
  | Some _ => false
  end.

(** No node of the document, key, value, element or container, has a
    comment attached. *)
Fixpoint comment_free (dom : Node) : bool :=
  match dom with
  | Mapping a m =>
      no_comment a
      && forallb (fun kv => no_comment (key_attrs (fst kv)) && comment_free (snd kv)) m
  | Sequence a l => no_comment a && forallb comment_free l
  | Scalar a _ => no_comment a
  end.

(** The anchor attributes [rename_anchor] tests: those of the keys and of
    the values of every mapping, and those of the scalars it comes to. *)
Fixpoint rename_sites (dom : Node) : list (option akey) :=
  match dom with
  | Mapping _ m =>
      flat_map
        (fun kv =>
           anchor_attr (key_attrs (fst kv))
             :: anchor_attr (node_attrs (snd kv))
             :: rename_sites (snd kv))
        m
  | Sequence _ l => flat_map rename_sites l
  | Scalar a _ => [anchor_attr a]
  end.

(** A document with comments and anchors, for the examples. *)
Definition commented_doc : Node :=
  Mapping (Attrs (Some None) (Some "head"))
    [(Key (Attrs (Some (Some "K")) (Some "on key")) (PyStr "k"),
      Scalar (Attrs (Some (Some "A")) (Some "on value")) (PyInt 1));
     (Key plain (PyStr "l"),
      Sequence (Attrs (Some None) (Some "on list"))
        [Scalar (Attrs (Some (Some "A")) None) (PyInt 1);
         Scalar (Attrs (Some None) (Some "on element")) (PyStr "x")])].


Definition hash_config (mode : HashMergeOpts.t) : MergerConfig :=
  {| hash_merge_mode := fun _ => mode;
     array_merge_mode := fun _ => ArrayMergeOpts.ALL;
     aoh_merge_mode := fun _ => AoHMergeOpts.DEEP;
     aoh_merge_key := fun _ _ => PyStr "id";
     anchor_merge_mode := AnchorConflictResolutions.ABORT |}.

Definition is_scalar (n : Node) : bool :=
  match n with Scalar _ _ => true | _ => false end.

(** The entry brings a key the mapping does not have. *)
Definition is_new (lhs : entries) (kv : keynode * Node) : bool :=
  negb (dict_has key_eqb (fst kv) lhs).

(** The keys of a mapping are pairwise different under Python's [==], as
    they are in every Python dictionary. *)
Definition distinct_keys (d : entries) : Prop := NoDup (map entry_id d).

(** The mapping merge goes the deep way: at the document root, or where
    the policy says DEEP. *)
Definition goes_deep (config : MergerConfig) (rhs : Node) (parent : option Node)
           (parentref : option parentref_t) (path : string) : Prop :=
  path = ""
  \/ hash_merge_mode config (mkNodeCoords rhs parent parentref) = HashMergeOpts.DEEP.

(** Nothing [recursive_anchor_replace] tests carries the anchor: no key
    and no value of a mapping, no element of a sequence, at any depth. *)
Fixpoint anchor_unused (anchor_val : akey) (data : Node) : bool :=
  match data with
  | Mapping _ m =>
      forallb
        (fun kv =>
           negb (anchor_is (key_attrs (fst kv)) anchor_val)
           && negb (anchor_is (node_attrs (snd kv)) anchor_val)
           && anchor_unused anchor_val (snd kv))
        m
  | Sequence _ l =>
      forallb
        (fun ele =>
           negb (anchor_is (node_attrs ele) anchor_val)
           && anchor_unused anchor_val ele)
        l
  | Scalar _ _ => true
  end.

(** ** The nodes of a document *)

(** The nodes under a node, in the order of a walk through the document:
    for a mapping each key, then its value, then what is under the
    value; for a sequence each element, then what is under it. *)
Fixpoint nodes_under (dom : Node) : list Node :=
  match dom with
  | Mapping _ m =>
      flat_map
        (fun kv => node_of_key (fst kv) :: snd kv :: nodes_under (snd kv))
        m
  | Sequence _ l => flat_map (fun ele => ele :: nodes_under ele) l
  | Scalar _ _ => []
  end.

(** All the nodes of a document, the root first. *)
Definition nodes (dom : Node) : list Node := dom :: nodes_under dom.

(** The nodes of a list that carry a name. *)
Definition carrying (name : akey) (l : list Node) : list Node :=
  List.filter (fun x => anchor_is (node_attrs x) name) l.

(** The nodes of a document that carry a name, in the order of the walk:
    the occurrences of the name, whatever the kind and the position of
    the node. *)
Definition occurrences (name : akey) (dom : Node) : list Node :=
  carrying name (nodes dom).

(** The nodes written under a name, in the order of the writes. *)
Definition written (name : akey) (writes : list (akey * Node)) : list Node :=
  map snd (List.filter (fun w => akey_eqb (fst w) name) writes).


(** The anchor attributes of the mappings and sequences that stand where
    [scan_for_anchors] and [rename_anchor] go into a node without a look
    at its own anchor: the elements of sequences, at any depth, and the
    root of the document. *)
Fixpoint passed_over_under (dom : Node) : list (option akey) :=
  match dom with
  | Mapping _ m => flat_map (fun kv => passed_over_under (snd kv)) m
  | Sequence _ l =>
      flat_map
        (fun ele =>
           (if is_scalar ele then [] else [anchor_attr (node_attrs ele)])
             ++ passed_over_under ele)
        l
  | Scalar _ _ => []
  end.

Definition passed_over (dom : Node) : list (option akey) :=
  (if is_scalar dom then [] else [anchor_attr (node_attrs dom)])
    ++ passed_over_under dom.

(** ** Anchors rewritten throughout a document *)




(** ** The names the anchor pass stops at *)



Section Renaming.
Context `{Externals}.


End Renaming.


(** * Properties *)

(** ** Mapping merges *)

(** One unfolding of the recursive merges. *)
Lemma _merge_dicts_unfold config lhs rhs parent parentref path :
  _merge_dicts config lhs rhs parent parentref path
  = merge_dicts_open config (_merge_dicts config) (_merge_lists config)
                     lhs rhs parent parentref path.
Proof. destruct rhs; reflexivity. Qed.

Lemma _merge_lists_unfold config lhs rhs parent parentref path :
  _merge_lists config lhs rhs parent parentref path
  = merge_lists_open config (_merge_dicts config) lhs rhs parent parentref path.
Proof. destruct rhs; reflexivity. Qed.

(** C8.  A DEEP merge of the document roots [{a: 1, b: 2}] and
    [{b: 3, c: 4}] gives [{a: 1, b: 3, c: 4}], the merged value written
    back where [b] stood, with key order [a, b, c]; and [{z: 1}] merged
    with [{a: 2, b: 3}] has key order [z, a, b].  The root merge asks no
    policy, so this holds under every configuration. *)
Theorem merge_dicts_spec_examples (config : MergerConfig) :
  let abc := Doc.map [(Doc.key "a", Doc.int 1); (Doc.key "b", Doc.int 3);
                      (Doc.key "c", Doc.int 4)] in
  let zab := Doc.map [(Doc.key "z", Doc.int 1); (Doc.key "a", Doc.int 2);
                      (Doc.key "b", Doc.int 3)] in
  _merge_dicts config
    (Doc.map [(Doc.key "a", Doc.int 1); (Doc.key "b", Doc.int 2)])
    (Doc.map [(Doc.key "b", Doc.int 3); (Doc.key "c", Doc.int 4)])
    None None ""
  = Ok (Out abc abc)
  /\ key_names abc = ["a"; "b"; "c"]
  /\ _merge_dicts config
       (Doc.map [(Doc.key "z", Doc.int 1)])
       (Doc.map [(Doc.key "a", Doc.int 2); (Doc.key "b", Doc.int 3)])
       None None ""
     = Ok (Out zab zab)
  /\ key_names zab = ["z"; "a"; "b"].
Proof. repeat split; reflexivity. Qed.

Lemma dict_set_fresh (k : keynode) (v : Node) (d : entries) :
  dict_has key_eqb k d = false -> dict_set key_eqb k v d = d ++ [(k, v)].
Proof.
  unfold dict_has. induction d as [|[k' v'] d IH]; simpl.
  - reflexivity.
  - destruct (key_eqb k' k); [discriminate|].
    intros Hd. now rewrite IH.
Qed.

Lemma dict_has_app_l (k : keynode) (d1 d2 : entries) :
  dict_has key_eqb k (d1 ++ d2) = false -> dict_has key_eqb k d1 = false.
Proof.
  unfold dict_has. induction d1 as [|[k' v'] d1 IH]; simpl.
  - reflexivity.
  - destruct (key_eqb k' k); [discriminate | exact IH].
Qed.

Lemma write_remaining_fresh (buffer : entries) :
  forall lhs, all_fresh buffer lhs -> write_remaining buffer lhs = lhs ++ buffer.
Proof.
  unfold write_remaining.
  induction buffer as [|[k v] buffer IH]; intros lhs Hfresh; simpl.
  - now rewrite app_nil_r.
  - destruct Hfresh as [Hk Hrest].
    rewrite dict_set_fresh by exact Hk.
    rewrite IH by exact Hrest. now rewrite <- app_assoc.
Qed.

Lemma all_fresh_absent (buffer : entries) :
  forall lhs kv,
    all_fresh buffer lhs -> In kv buffer -> dict_has key_eqb (fst kv) lhs = false.
Proof.
  induction buffer as [|[k v] buffer IH]; intros lhs kv Hfresh Hin.
  - destruct Hin.
  - destruct Hfresh as [Hk Hrest]. destruct Hin as [<-|Hin].
    + exact Hk.
    + eapply dict_has_app_l, IH; eassumption.
Qed.

Lemma merge_dicts_loop_all_new merge_dicts merge_lists rhs_node path rhs lhs :
  (forall kv, In kv rhs -> dict_has key_eqb (fst kv) lhs = false) ->
  forall buffer buffer_pos,
    merge_dicts_loop merge_dicts merge_lists rhs_node path rhs lhs buffer buffer_pos
    = Ok (write_remaining (buffer ++ rhs) lhs).
Proof.
  induction rhs as [|[key val] rhs IH]; intros Hnew buffer buffer_pos;
    cbn [merge_dicts_loop].
  - now rewrite app_nil_r.
  - pose proof (Hnew (key, val) (or_introl eq_refl)) as Hk.
    cbn [fst] in Hk. rewrite Hk.
    rewrite IH by (intros kv Hin; apply Hnew; now right).
    now rewrite <- app_assoc.
Qed.

(** The part of C1 that holds: when no incoming key is in the target, all
    the incoming entries stay buffered to the end of the loop and are
    appended behind the target's entries in their incoming order. *)
Lemma merge_dicts_new_keys_appended (config : MergerConfig) (la ra : attrs)
      (lm rm : entries) :
  all_fresh rm lm ->
  _merge_dicts config (Mapping la lm) (Mapping ra rm) None None ""
  = Ok (Out (Mapping la (lm ++ rm)) (Mapping la (lm ++ rm))).
Proof.
  intros Hfresh. rewrite _merge_dicts_unfold. unfold merge_dicts_open.
  simpl. destruct rm as [|kv rm'].
  - now rewrite app_nil_r.
  - rewrite merge_dicts_loop_all_new.
    + cbn [bind app]. now rewrite write_remaining_fresh.
    + intros kv' Hin. exact (all_fresh_absent _ _ _ Hfresh Hin).
Qed.

(** *** Where the buffer is flushed *)

Lemma scalar_eqb_norm (x y : scalar) :
  scalar_eqb x y = true <-> key_norm x = key_norm y.
Proof.
  destruct x as [|[|]|z|s], y as [|[|]|z'|s']; simpl;
    try (split; [discriminate | intros [=]]);
    try (split; reflexivity);
    try (rewrite Z.eqb_eq; split; [intros ->; reflexivity | intros [=]; congruence]).
  rewrite String.eqb_eq. split; [intros ->; reflexivity | intros [=]; congruence].
Qed.

Lemma dict_has_entry_id (k : keynode) (d : entries) :
  dict_has key_eqb k d = false
  <-> ~ In (key_norm (key_value k)) (map entry_id d).
Proof.
  unfold dict_has. induction d as [|[k' v'] d IH]; simpl.
  - split; [intros _ [] | reflexivity].
  - unfold key_eqb at 1. simpl. destruct (scalar_eqb (key_value k') (key_value k)) eqn:E.
    + apply scalar_eqb_norm in E. split; [discriminate|].
      intros Hn. exfalso. apply Hn. left. exact E.
    + rewrite IH. split.
      * intros Hn [Heq|Hin]; [|contradiction].
        apply scalar_eqb_norm in Heq. unfold entry_id in Heq. simpl in Heq. congruence.
      * intros Hn Hin. apply Hn. now right.
Qed.

Lemma NoDup_all_fresh (buffer : entries) :
  forall lhs, NoDup (map entry_id (lhs ++ buffer)) -> all_fresh buffer lhs.
Proof.
  induction buffer as [|[k v] buffer IH]; intros lhs Hnd; simpl.
  - exact I.
  - split.
    + apply dict_has_entry_id. rewrite map_app in Hnd. simpl in Hnd.
      apply NoDup_app in Hnd as (_ & Hsep & _).
      intros Hin. apply list_elem_of_In in Hin.
      apply (Hsep _ Hin). left.
    + apply IH. now rewrite <- app_assoc.
Qed.

(** Once the new entry is in, the rebuilding loop writes the old entries
    back behind what it has. *)
Lemma insert_rebuild_after (pos : nat) (k : keynode) (v : Node) (od : entries) :
  forall index acc,
    pos < index ->
    all_fresh od acc ->
    insert_rebuild key_eqb pos k v index od acc = acc ++ od.
Proof.
  induction od as [|[k' v'] od IH]; intros index acc Hlt Hfresh; simpl.
  - now rewrite app_nil_r.
  - destruct Hfresh as [Hk Hrest].
    replace (pos =? index)%nat with false by (symmetry; apply Nat.eqb_neq; lia).
    rewrite dict_set_fresh by exact Hk.
    rewrite IH by (try lia; exact Hrest).
    now rewrite <- app_assoc.
Qed.

Lemma insert_rebuild_at (k : keynode) (v : Node) (od : entries) :
  forall pos index acc,
    index <= pos -> pos < index + length od ->
    all_fresh (firstn (pos - index) od ++ (k, v) :: skipn (pos - index) od) acc ->
    insert_rebuild key_eqb pos k v index od acc
    = acc ++ firstn (pos - index) od ++ (k, v) :: skipn (pos - index) od.
Proof.
  induction od as [|[k' v'] od IH]; intros pos index acc Hle Hlt Hfresh.
  - simpl in Hlt. lia.
  - simpl insert_rebuild. destruct (Nat.eqb_spec pos index) as [->|Hne].
    + rewrite Nat.sub_diag in *. simpl in Hfresh. simpl firstn. simpl skipn.
      destruct Hfresh as [Hk [Hk' Hrest]].
      rewrite (dict_set_fresh k v acc Hk).
      rewrite (dict_set_fresh k' v' _ Hk').
      rewrite insert_rebuild_after by (try lia; exact Hrest).
      now rewrite <- !app_assoc.
    + replace (pos - index) with (S (pos - S index)) in * by lia.
      simpl in Hfresh. destruct Hfresh as [Hk' Hrest].
      rewrite dict_set_fresh by exact Hk'.
      simpl in Hlt. rewrite IH by (try lia; exact Hrest).
      simpl. now rewrite <- app_assoc.
Qed.

(** [lhs.insert(pos, k, v)] with a new key and a position inside the
    mapping: the entry goes to index [pos]. *)
Lemma dict_insert_new (pos : nat) (k : keynode) (v : Node) (lhs : entries) :
  NoDup (map entry_id ((k, v) :: lhs)) ->
  pos <= length lhs ->
  dict_insert key_eqb pos k v lhs = firstn pos lhs ++ (k, v) :: skipn pos lhs.
Proof.
  intros Hnd Hpos. unfold dict_insert.
  destruct (Nat.leb_spec (length lhs) pos) as [Hge|Hlt].
  - rewrite take_ge, drop_ge by lia. apply dict_set_fresh.
    apply dict_has_entry_id. simpl in Hnd.
    apply NoDup_cons in Hnd as [Hnew _].
    intros Hin. apply Hnew. now apply list_elem_of_In.
  - rewrite insert_rebuild_at; rewrite ?Nat.sub_0_r; try lia; [reflexivity|].
    apply NoDup_all_fresh. simpl app.
    assert (Permutation (firstn pos lhs ++ (k, v) :: skipn pos lhs)
                        ((k, v) :: lhs)) as Hperm.
    { rewrite <- Permutation_middle. now rewrite firstn_skipn. }
    now rewrite (Permutation_map entry_id Hperm).
Qed.

(** The flush of [_merge_dicts] puts the buffered entries at the index
    given by the counter, each of them at that same index, so that they
    end up there in reverse order. *)
Lemma flush_buffer_reversed (buffer_pos : nat) (buffer : entries) :
  forall lhs,
    NoDup (map entry_id (lhs ++ buffer)) ->
    buffer_pos <= length lhs ->
    flush_buffer buffer_pos buffer lhs
    = firstn buffer_pos lhs ++ rev buffer ++ skipn buffer_pos lhs.
Proof.
  unfold flush_buffer.
  induction buffer as [|[k v] buffer IH]; intros lhs Hnd Hpos; simpl.
  - now rewrite firstn_skipn.
  - assert (Permutation ((k, v) :: lhs ++ buffer) (lhs ++ (k, v) :: buffer))
      as Hmid by apply Permutation_middle.
    rewrite <- (Permutation_map entry_id Hmid) in Hnd.
    rewrite dict_insert_new; [|..|exact Hpos].
    + rewrite IH.
      * assert (length (firstn buffer_pos lhs) = buffer_pos) as Hlen
            by (rewrite length_take; lia).
        rewrite firstn_app, skipn_app, Hlen, Nat.sub_diag. simpl.
        rewrite take_ge, drop_ge by lia.
        simpl. rewrite <- !app_assoc. reflexivity.
      * assert (Permutation
                  ((firstn buffer_pos lhs ++ (k, v) :: skipn buffer_pos lhs) ++ buffer)
                  ((k, v) :: lhs ++ buffer)) as Hperm.
        { rewrite <- (firstn_skipn buffer_pos lhs) at 3.
          rewrite <- !app_assoc. simpl.
          now rewrite <- Permutation_middle. }
        now rewrite (Permutation_map entry_id Hperm).
      * rewrite length_app, length_take. simpl. lia.
    + simpl in Hnd. simpl. rewrite map_app in Hnd.
      apply NoDup_cons in Hnd as [Hnew Hnd].
      apply NoDup_cons. split.
      * intros Hin. apply Hnew. apply elem_of_app. now left.
      * now apply NoDup_app in Hnd as (Hl & _ & _).
Qed.

Lemma merge_dicts_loop_buffering merge_dicts merge_lists rhs_node path
      (news rest lhs : entries) :
  (forall kv, In kv news -> dict_has key_eqb (fst kv) lhs = false) ->
  forall buffer buffer_pos,
    merge_dicts_loop merge_dicts merge_lists rhs_node path (news ++ rest) lhs
                     buffer buffer_pos
    = merge_dicts_loop merge_dicts merge_lists rhs_node path rest lhs
                       (buffer ++ news) (buffer_pos + length news).
Proof.
  induction news as [|[key val] news IH]; intros Hnew buffer buffer_pos.
  - simpl. now rewrite app_nil_r, Nat.add_0_r.
  - simpl app. cbn [merge_dicts_loop].
    pose proof (Hnew (key, val) (or_introl eq_refl)) as Hk.
    cbn [fst] in Hk. rewrite Hk.
    rewrite IH by (intros kv Hin; apply Hnew; now right).
    rewrite <- app_assoc. simpl. now rewrite Nat.add_succ_r.
Qed.

(** What the code does where C1 has the flush in front of the
    pre-existing key.  The incoming mapping brings the new entries
    [news] and then a key the target has, with a scalar value.  The new
    entries are flushed at the index that is their number, whatever the
    place of the pre-existing key in the target, and in reverse
    order. *)
Lemma merge_dicts_flush_at_counter (config : MergerConfig) (la ra a : attrs)
      (lm news : entries) (key : keynode) (v : scalar) :
  NoDup (map entry_id (lm ++ news)) ->
  dict_has key_eqb key lm = true ->
  length news <= length lm ->
  let merged :=
    Mapping la (dict_set key_eqb key (Scalar a v)
                  (firstn (length news) lm ++ rev news
                     ++ skipn (length news) lm)) in
  _merge_dicts config (Mapping la lm) (Mapping ra (news ++ [(key, Scalar a v)]))
               None None ""
  = Ok (Out merged merged).
Proof.
  intros Hnd Hkey Hlen merged.
  rewrite _merge_dicts_unfold. unfold merge_dicts_open.
  cbn [String.length Nat.ltb Nat.leb].
  destruct (news ++ [(key, Scalar a v)]) as [|kv rm] eqn:Erm;
    [now destruct news|].
  rewrite <- Erm. clear Erm kv rm.
  rewrite merge_dicts_loop_buffering.
  - cbn [merge_dicts_loop app Nat.add]. rewrite Hkey.
    rewrite flush_buffer_reversed by assumption.
    reflexivity.
  - intros kv Hin.
    exact (all_fresh_absent _ _ _ (NoDup_all_fresh _ _ Hnd) Hin).
Qed.

(** C1, at a failing input.  Target [{a: 1, b: 2}], incoming
    [{x: 7, y: 8, a: 9}]: [x] and [y] are buffered and flushed when [a]
    is reached, but at index 2, the count of incoming entries gone
    through, and one by one at that same index.  They land behind [a]
    and [b], and in reverse order. *)
Theorem merge_dicts_flush_misplaced (config : MergerConfig) :
  let got := Doc.map [(Doc.key "a", Doc.int 9); (Doc.key "b", Doc.int 2);
                      (Doc.key "y", Doc.int 8); (Doc.key "x", Doc.int 7)] in
  _merge_dicts config
    (Doc.map [(Doc.key "a", Doc.int 1); (Doc.key "b", Doc.int 2)])
    (Doc.map [(Doc.key "x", Doc.int 7); (Doc.key "y", Doc.int 8);
              (Doc.key "a", Doc.int 9)])
    None None ""
  = Ok (Out got got)
  /\ key_names got = ["a"; "b"; "y"; "x"]
  /\ key_names got <> ["x"; "y"; "a"; "b"].
Proof. repeat split; try reflexivity. discriminate. Qed.


(** ** Anchor names and the anchor dictionary *)

Lemma akey_eqb_eq (x y : akey) : akey_eqb x y = true <-> x = y.
Proof.
  destruct x as [a|], y as [b|]; simpl; split; intros E;
    try discriminate; try reflexivity.
  - apply String.eqb_eq in E. now subst.
  - injection E as ->. apply String.eqb_refl.
Qed.

Lemma akey_eqb_refl (x : akey) : akey_eqb x x = true.
Proof. now apply akey_eqb_eq. Qed.

Lemma akey_eqb_neq (x y : akey) : akey_eqb x y = false <-> x <> y.
Proof.
  split.
  - intros E ->. rewrite akey_eqb_refl in E. discriminate.
  - intros N. destruct (akey_eqb x y) eqn:E; [|reflexivity].
    apply akey_eqb_eq in E. contradiction.
Qed.

Lemma adict_get_set (k k' : akey) (v : Node) (d : adict) :
  dict_get akey_eqb k (dict_set akey_eqb k' v d)
  = if akey_eqb k' k then Some v else dict_get akey_eqb k d.
Proof.
  induction d as [|[k0 v0] d IH]; simpl.
  - reflexivity.
  - destruct (akey_eqb k0 k') eqn:E0; simpl.
    + apply akey_eqb_eq in E0. subst k0.
      destruct (akey_eqb k' k); reflexivity.
    + rewrite IH. destruct (akey_eqb k0 k) eqn:E1; [|reflexivity].
      apply akey_eqb_eq in E1. subst k0.
      assert (akey_eqb k' k = false) as ->; [|reflexivity].
      apply akey_eqb_neq. apply akey_eqb_neq in E0. congruence.
Qed.

Lemma write_all_app w1 w2 anchors :
  write_all (w1 ++ w2) anchors = write_all w2 (write_all w1 anchors).
Proof. apply fold_left_app. Qed.

Lemma record_named_writes x anchors :
  record_named x anchors = write_all (named_write x) anchors.
Proof.
  unfold record_named, named_write.
  destruct (anchor_attr (node_attrs x)) as [[name|]|]; reflexivity.
Qed.

(** The scan is the sequence of its writes. *)
Lemma scan_for_anchors_writes dom :
  forall anchors,
    scan_for_anchors dom anchors = write_all (anchor_writes dom) anchors.
Proof.
  induction dom as [a v|a l IH|a m IH] using Node_nested_ind; intros anchors.
  - simpl. destruct (anchor_attr a); reflexivity.
  - simpl. revert anchors.
    induction IH as [|x l Hx _ IHl]; intros anchors; simpl.
    + reflexivity.
    + rewrite write_all_app, <- Hx. apply IHl.
  - simpl. revert anchors.
    induction IH as [|[k x] m Hx _ IHm]; intros anchors; simpl.
    + reflexivity.
    + rewrite !write_all_app, <- !record_named_writes.
      simpl in Hx.
      destruct x as [ax vx|ax lx|ax mx].
      * apply IHm.
      * rewrite <- Hx. apply IHm.
      * rewrite <- Hx. apply IHm.
Qed.

Lemma first_write_app name w1 w2 :
  first_write name (w1 ++ w2)
  = match first_write name w1 with
    | Some x => Some x
    | None => first_write name w2
    end.
Proof.
  unfold first_write. induction w1 as [|w w1 IH]; simpl.
  - reflexivity.
  - destruct (akey_eqb (fst w) name); [reflexivity | apply IH].
Qed.

Lemma write_all_get name writes :
  forall anchors,
    dict_get akey_eqb name (write_all writes anchors)
    = match last_write name writes with
      | Some x => Some x
      | None => dict_get akey_eqb name anchors
      end.
Proof.
  unfold last_write.
  induction writes as [|w writes IH]; intros anchors; simpl.
  - reflexivity.
  - rewrite first_write_app.
    change (fold_left _ writes ?d) with (write_all writes d).
    rewrite IH.
    destruct (first_write name (rev writes)); [reflexivity|].
    rewrite adict_get_set. unfold first_write. simpl.
    destruct (akey_eqb (fst w) name); reflexivity.
Qed.

(** What the scan leaves under a name, from any starting dictionary. *)
Lemma scan_for_anchors_get (dom : Node) (name : akey) (anchors : adict) :
  dict_get akey_eqb name (scan_for_anchors dom anchors)
  = match last_write name (anchor_writes dom) with
    | Some x => Some x
    | None => dict_get akey_eqb name anchors
    end.
Proof. now rewrite scan_for_anchors_writes, write_all_get. Qed.

(** What the scan passes over, and what it records without a name: a
    mapping or a sequence that sits in a sequence is gone into but its
    own anchor is not recorded, and a scalar in a sequence that has the
    anchor attribute is recorded under the attribute's value even when
    that value is [None]. *)
Example scan_for_anchors_in_sequences :
  scan_for_anchors
    (Doc.seq [Mapping (anchored "A") [(Doc.key "x", Doc.int 1)]]) [] = []
  /\ scan_for_anchors (Doc.seq [Scalar bare (PyStr "text")]) []
     = [(None, Scalar bare (PyStr "text"))].
Proof. split; reflexivity. Qed.

(** *** The writes of the scan and the occurrences of a name *)

(** The nodes written under a name, in the order of the writes. *)
Lemma last_write_last (name : akey) (writes : list (akey * Node)) :
  last_write name writes
  = last (map snd (List.filter (fun w => akey_eqb (fst w) name) writes)).
Proof.
  unfold last_write.
  induction writes as [|w writes IH]; [reflexivity|].
  cbn [rev List.filter]. rewrite first_write_app, IH.
  destruct (akey_eqb (fst w) name) eqn:E.
  - cbn [map]. rewrite last_cons.
    destruct (last _); [reflexivity|].
    unfold first_write. simpl. now rewrite E.
  - destruct (last _); [reflexivity|].
    unfold first_write. simpl. now rewrite E.
Qed.

Lemma written_app (name : akey) (w1 w2 : list (akey * Node)) :
  written name (w1 ++ w2) = written name w1 ++ written name w2.
Proof. unfold written. now rewrite List.filter_app, map_app. Qed.

Lemma carrying_app (name : akey) (l1 l2 : list Node) :
  carrying name (l1 ++ l2) = carrying name l1 ++ carrying name l2.
Proof. apply List.filter_app. Qed.

Lemma written_named_write (name : string) (x : Node) :
  written (Some name) (named_write x) = carrying (Some name) [x].
Proof.
  unfold written, carrying, named_write, anchor_is. simpl.
  destruct (anchor_attr (node_attrs x)) as [[n|]|]; simpl; try reflexivity.
  destruct (String.eqb n name); reflexivity.
Qed.

Lemma carrying_passed_over (name : akey) (x : Node) (t : list Node) :
  anchor_attr (node_attrs x) <> Some name ->
  carrying name (x :: t) = carrying name t.
Proof.
  intros Hfree. unfold carrying. cbn [List.filter].
  destruct (anchor_is (node_attrs x) name) eqn:E; [|reflexivity].
  exfalso. apply Hfree.
  unfold anchor_is in E. destruct (anchor_attr (node_attrs x)) as [v0|];
    [|discriminate].
  apply akey_eqb_eq in E. now subst.
Qed.

(** Away from the mappings and sequences it passes over, the scan writes
    each node that carries the name, in the order of the walk. *)
Lemma written_anchor_writes (name : string) (dom : Node) :
  ~ In (Some (Some name)) (passed_over_under dom) ->
  written (Some name) (anchor_writes dom)
  = carrying (Some name) (if is_scalar dom then [dom] else nodes_under dom).
Proof.
  induction dom as [a v|a l IH|a m IH] using Node_nested_ind; intros Hfree.
  - unfold written, carrying, anchor_is. simpl.
    destruct (anchor_attr a) as [v0|]; simpl; [|reflexivity].
    destruct (akey_eqb v0 (Some name)); reflexivity.
  - cbn [is_scalar anchor_writes nodes_under passed_over_under] in *.
    induction IH as [|x l Hx _ IHl]; [reflexivity|].
    cbn [flat_map] in *. rewrite !in_app_iff in Hfree.
    rewrite written_app, carrying_app, IHl by tauto. f_equal.
    rewrite Hx by tauto.
    destruct (is_scalar x) eqn:Ex.
    + destruct x; try discriminate. reflexivity.
    + symmetry. apply carrying_passed_over.
      intros E. apply Hfree. left. left. now left.
  - cbn [is_scalar anchor_writes nodes_under passed_over_under] in *.
    induction IH as [|[k x] m Hx _ IHm]; [reflexivity|].
    cbn [flat_map fst snd] in *. rewrite in_app_iff in Hfree.
    rewrite !written_app, IHm by tauto.
    rewrite carrying_app. f_equal.
    change (node_of_key k :: x :: nodes_under x)
      with ([node_of_key k] ++ [x] ++ nodes_under x).
    rewrite !carrying_app, !written_named_write. do 2 f_equal.
    destruct x as [ax vx|ax lx|ax mx].
    + reflexivity.
    + rewrite Hx by tauto. reflexivity.
    + rewrite Hx by tauto. reflexivity.
Qed.

Lemma written_occurrences (name : string) (dom : Node) :
  ~ In (Some (Some name)) (passed_over dom) ->
  written (Some name) (anchor_writes dom) = occurrences (Some name) dom.
Proof.
  intros Hfree. unfold passed_over in Hfree. rewrite in_app_iff in Hfree.
  rewrite written_anchor_writes by tauto.
  unfold occurrences, nodes.
  destruct (is_scalar dom) eqn:Es.
  - destruct dom; try discriminate. reflexivity.
  - symmetry. apply carrying_passed_over.
    intros E. apply Hfree. left. now left.
Qed.

(** The scan holds, under a name that no mapping or sequence it passes
    over carries, the last node of the document that carries it. *)
Lemma scan_for_anchors_last (dom : Node) (name : string) :
  ~ In (Some (Some name)) (passed_over dom) ->
  dict_get akey_eqb (Some name) (scan_for_anchors dom [])
  = last (occurrences (Some name) dom).
Proof.
  intros Hfree.
  pose proof (scan_for_anchors_get dom (Some name) []) as Hget.
  cbn [dict_get] in Hget. rewrite Hget, last_write_last.
  fold (written (Some name) (anchor_writes dom)).
  rewrite (written_occurrences name dom Hfree).
  now destruct (last _).
Qed.

(** C3, as the code has it.  Let no mapping and no sequence that is the
    root of the document or an element of a sequence carry the name:
    the scan goes into these without a look at their own anchor, and
    what it holds for a name one of them carries is left open here.
    Then the anchor scan holds under the name the last of the nodes
    that carry it, in the order of a walk through the document (the
    root, then mapping keys, mapping values and sequence elements,
    recursively): every later occurrence overwrites the entry. *)
Theorem scan_for_anchors_last_occurrence (dom : Node) (name : string) :
  ~ In (Some (Some name)) (passed_over dom) ->
  dict_get akey_eqb (Some name) (scan_for_anchors dom [])
  = last (occurrences (Some name) dom).
Proof. exact (scan_for_anchors_last dom name). Qed.

(** The statement at work: three nodes carry [a], the last of them
    inside a mapping that is an element of a sequence. *)
Lemma scan_for_anchors_last_occurrence_witness :
  let dom := Doc.map [(Doc.key "p", Doc.anchored_int "a" 1);
                      (Doc.key "l",
                       Doc.seq [Doc.anchored_int "a" 2;
                                Doc.map [(Doc.key "k", Doc.anchored_int "a" 3)]]);
                      (Doc.key "q", Mapping (anchored "b") [])] in
  ~ In (Some (Some "a")) (passed_over dom)
  /\ occurrences (Some "a") dom
     = [Doc.anchored_int "a" 1; Doc.anchored_int "a" 2; Doc.anchored_int "a" 3]
  /\ dict_get akey_eqb (Some "a") (scan_for_anchors dom [])
     = Some (Doc.anchored_int "a" 3).
Proof.
  intros dom.
  assert (~ In (Some (Some "a")) (passed_over dom)) as Hfree.
  { simpl. intuition discriminate. }
  split; [exact Hfree|]. split; [reflexivity|].
  rewrite (scan_for_anchors_last_occurrence dom "a" Hfree). reflexivity.
Defined.

(** C3 fails as stated.  In [{p: &a 1, q: &a 2}] the name [a] is carried
    by two nodes; the first occurrence is the node [&a 1], the scan
    holds the node [&a 2]. *)
Lemma scan_for_anchors_not_first_occurrence :
  let dom := Doc.map [(Doc.key "p", Doc.anchored_int "a" 1);
                      (Doc.key "q", Doc.anchored_int "a" 2)] in
  occurrences (Some "a") dom
  = [Doc.anchored_int "a" 1; Doc.anchored_int "a" 2]
  /\ dict_get akey_eqb (Some "a") (scan_for_anchors dom [])
     = Some (Doc.anchored_int "a" 2)
  /\ dict_get akey_eqb (Some "a") (scan_for_anchors dom [])
     <> head (occurrences (Some "a") dom).
Proof. repeat split; try reflexivity. discriminate. Qed.

(** *** Scalar anchors are recorded *)




(** ** Simple lists *)

Lemma append_own_anchor (data : list Node) (ele : Node) :
  append_list_element data ele (anchor_value_or_none (node_attrs ele))
  = data ++ [ele].
Proof.
  unfold append_list_element, anchor_value_or_none.
  destruct ele as [[[[name|]|] c] v|[[[name|]|] c] l|[[[name|]|] c] m];
    reflexivity.
Qed.

Lemma py_in_app ele l1 l2 : py_in ele (l1 ++ l2) = py_in ele l1 || py_in ele l2.
Proof. apply existsb_app. Qed.

Lemma simple_lists_loop_unique rl :
  forall ll, simple_lists_loop false rl ll = ll ++ unique_additions ll rl.
Proof.
  induction rl as [|ele rl IH]; intros ll; simpl.
  - now rewrite app_nil_r.
  - rewrite append_own_anchor, IH.
    destruct (py_in ele ll); simpl.
    + reflexivity.
    + now rewrite <- app_assoc.
Qed.

Lemma unique_additions_sublist rl :
  forall ll, sublist (unique_additions ll rl) rl.
Proof.
  induction rl as [|ele rl IH]; intros ll; simpl.
  - constructor.
  - destruct (py_in ele ll).
    + apply sublist_cons, IH.
    + apply sublist_skip, IH.
Qed.

Lemma unique_additions_new rl :
  forall ll ele, In ele (unique_additions ll rl) -> py_in ele ll = false.
Proof.
  induction rl as [|x rl IH]; intros ll ele; simpl.
  - intros [].
  - destruct (py_in x ll) eqn:E.
    + apply IH.
    + intros [<-|Hin]; [exact E|].
      apply IH in Hin. rewrite py_in_app in Hin.
      now apply orb_false_iff in Hin.
Qed.

Lemma unique_additions_covers rl :
  forall ll ele,
    In ele rl ->
    In ele (unique_additions ll rl)
    \/ py_in ele (ll ++ unique_additions ll rl) = true.
Proof.
  induction rl as [|x rl IH]; intros ll ele; simpl.
  - intros [].
  - intros [<-|Hin].
    + destruct (py_in x ll) eqn:E.
      * right. rewrite py_in_app, E. reflexivity.
      * left. now left.
    + destruct (py_in x ll) eqn:E.
      * apply IH, Hin.
      * destruct (IH (ll ++ [x]) ele Hin) as [H|H].
        -- left. now right.
        -- right. now rewrite <- app_assoc in H.
Qed.

(** C9, as the code has it.  Under UNIQUE the merged list is the target
    followed by the incoming elements that were kept, where an incoming
    element is dropped when it is value-equal to an element of the
    target as it stands when the element is reached (an element the
    target had from the start, or an incoming element appended before).
    The kept elements are the incoming nodes themselves, anchors
    included, in incoming order; none of them is value-equal to an
    element the target had; and an incoming element is dropped only when
    a value-equal element is in the merged list. *)
Theorem merge_simple_lists_unique (config : MergerConfig) (la ra : attrs)
        (ll rl : list Node) (node_coord : NodeCoords) (path : string) :
  array_merge_mode config node_coord = ArrayMergeOpts.UNIQUE ->
  let kept := unique_additions ll rl in
  let merged := Sequence la (ll ++ kept) in
  _merge_simple_lists config (Sequence la ll) (Sequence ra rl) node_coord path
  = Ok (Out merged merged)
  /\ sublist kept rl
  /\ (forall ele, In ele kept -> py_in ele ll = false)
  /\ (forall ele, In ele rl -> In ele kept \/ py_in ele (ll ++ kept) = true).
Proof.
  intros Hmode kept merged. repeat split.
  - unfold _merge_simple_lists. rewrite Hmode.
    destruct rl as [|ele rl'].
    + subst merged kept. simpl. now rewrite app_nil_r.
    + now rewrite simple_lists_loop_unique.
  - apply unique_additions_sublist.
  - apply unique_additions_new.
  - apply unique_additions_covers.
Qed.

(** The statement at work: the second [2], anchored or not, is dropped
    after the first one has been appended. *)
Lemma merge_simple_lists_unique_witness :
  let target := [Doc.int 1] in
  let incoming := [Doc.int 2; Doc.int 1; Doc.anchored_int "n" 2; Doc.int 3] in
  array_merge_mode unique_lists_config (root_coords (Doc.seq incoming))
  = ArrayMergeOpts.UNIQUE
  /\ _merge_simple_lists unique_lists_config (Doc.seq target) (Doc.seq incoming)
       (root_coords (Doc.seq incoming)) ""
     = Ok (Out (Doc.seq [Doc.int 1; Doc.int 2; Doc.int 3])
               (Doc.seq [Doc.int 1; Doc.int 2; Doc.int 3])).
Proof.
  split; [reflexivity|].
  exact (proj1 (merge_simple_lists_unique
                  unique_lists_config bare bare
                  [Doc.int 1]
                  [Doc.int 2; Doc.int 1; Doc.anchored_int "n" 2; Doc.int 3]
                  (root_coords
                     (Doc.seq [Doc.int 2; Doc.int 1; Doc.anchored_int "n" 2;
                               Doc.int 3]))
                  "" eq_refl)).
Defined.

(** C9 fails as stated.  Target [[1]], incoming [[2, 2]]: no incoming
    element is value-equal to an element of the target, so all of them
    remain and the claim has the merged list [[1, 2, 2]]; the code drops
    the second [2], which it compares with the [2] it has just
    appended. *)
Lemma merge_simple_lists_unique_drops_repeats :
  let target := [Doc.int 1] in
  let incoming := [Doc.int 2; Doc.int 2] in
  new_to_target target incoming = incoming
  /\ _merge_simple_lists unique_lists_config (Doc.seq target) (Doc.seq incoming)
       (root_coords (Doc.seq incoming)) ""
     = Ok (Out (Doc.seq [Doc.int 1; Doc.int 2]) (Doc.seq [Doc.int 1; Doc.int 2]))
  /\ _merge_simple_lists unique_lists_config (Doc.seq target) (Doc.seq incoming)
       (root_coords (Doc.seq incoming)) ""
     <> Ok (Out (Doc.seq (target ++ new_to_target target incoming))
                (Doc.seq (target ++ new_to_target target incoming))).
Proof. repeat split; try reflexivity. discriminate. Qed.

(** ** Arrays of hashes *)

Lemma aoh_deep_scan_find (merge : Node -> res outcome) (id_key : scalar)
      (wanted : Node) (lhs : list Node) :
  Forall (fun record => is_dict record = true) lhs ->
  aoh_deep_scan merge id_key wanted lhs
  = match list_find (fun record => has_id_value id_key wanted record = true) lhs with
    | Some (i, record) =>
        let! r := merge record in Ok (Some (<[i := lhs_after r]> lhs))
    | None => Ok None
    end.
Proof.
  induction 1 as [|record lhs Hrec _ IH]; simpl.
  - reflexivity.
  - destruct record as [a v|a l|a lm]; try discriminate.
    cbn [aoh_deep_scan list_find].
    change (match dict_get key_eqb (Key plain id_key) lm with
            | Some v => py_eq v wanted
            | None => false
            end) with (has_id_value id_key wanted (Mapping a lm)).
    case_decide as Hd.
    + rewrite Hd. simpl. destruct (merge (Mapping a lm)); reflexivity.
    + apply not_true_is_false in Hd. rewrite Hd, IH.
      destruct (list_find _ lhs) as [[i record]|]; simpl.
      * destruct (merge record); reflexivity.
      * reflexivity.
Qed.

Lemma aoh_step_deep config rhs_node path idx ele lhs :
  Forall (fun record => is_dict record = true) lhs ->
  aoh_step config (_merge_dicts config) AoHMergeOpts.DEEP rhs_node path idx ele lhs
  = aoh_deep_record config rhs_node path idx ele lhs.
Proof.
  intros Hall. unfold aoh_step, aoh_deep_record.
  destruct (record_get ele _) as [wanted|f]; simpl; [|reflexivity].
  rewrite aoh_deep_scan_find by exact Hall.
  destruct (list_find _ lhs) as [[i record]|]; simpl.
  - destruct (_merge_dicts config record ele _ _ _); reflexivity.
  - now rewrite append_own_anchor.
Qed.

Lemma merge_dicts_keeps_mapping config lhs rhs parent parentref path r :
  is_dict lhs = true ->
  _merge_dicts config lhs rhs parent parentref path = Ok r ->
  is_dict (lhs_after r) = true.
Proof.
  intros Hd. rewrite _merge_dicts_unfold. unfold merge_dicts_open.
  destruct lhs as [| |la lm]; try discriminate.
  destruct (0 <? String.length path)%nat;
    [destruct (hash_merge_mode config _)|];
    try (intros [= <-]; reflexivity);
    (destruct rhs as [| |ra [|p rm]]; try discriminate;
     [intros [= <-]; reflexivity|];
     destruct (merge_dicts_loop _ _ _ _ _ _ _ _); simpl; [|discriminate];
     intros [= <-]; reflexivity).
Qed.

Lemma aoh_deep_record_keeps_mappings config rhs_node path idx ele lhs lhs' :
  Forall (fun record => is_dict record = true) lhs ->
  aoh_deep_record config rhs_node path idx ele lhs = Ok lhs' ->
  Forall (fun record => is_dict record = true) lhs'.
Proof.
  intros Hall. unfold aoh_deep_record.
  destruct (record_get ele _) as [wanted|f] eqn:Eget; simpl; [|discriminate].
  destruct (list_find _ lhs) as [[i record]|] eqn:Efind; simpl.
  - destruct (_merge_dicts config record ele _ _ _) as [r|f] eqn:Em; simpl;
      [|discriminate].
    intros [= <-]. apply Forall_insert; [exact Hall|].
    apply list_find_Some in Efind as (Hi & _ & _).
    eapply merge_dicts_keeps_mapping; [|exact Em].
    rewrite Forall_lookup in Hall. exact (Hall _ _ Hi).
  - intros [= <-]. apply Forall_app. split; [exact Hall|].
    constructor; [|constructor].
    unfold record_get in Eget. destruct ele; try discriminate. reflexivity.
Qed.

Lemma aoh_loop_deep config rhs_node path rl :
  forall idx ll,
    Forall (fun record => is_dict record = true) ll ->
    aoh_loop config (_merge_dicts config) AoHMergeOpts.DEEP rhs_node path idx rl ll
    = aoh_deep_records config rhs_node path idx rl ll.
Proof.
  induction rl as [|ele rl IH]; intros idx ll Hall;
    cbn [aoh_loop aoh_deep_records].
  - reflexivity.
  - rewrite aoh_step_deep by exact Hall.
    destruct (aoh_deep_record config rhs_node path idx ele ll) as [ll'|f] eqn:E;
      simpl; [|reflexivity].
    apply IH. eapply aoh_deep_record_keeps_mappings; eassumption.
Qed.

(** What the loop does under AoHMergeOpts DEEP, on a target list of
    mappings: the incoming records are gone through in order, each with
    the identity key the policy gives for it; the target list is
    searched for the first record with an equal value under that key;
    when there is one, the mapping merge is run on the two records and
    the target record as that call leaves it stays at its place in the
    list, the value the call returns being dropped; when there is none
    the incoming record is appended.  And under a policy that is DEEP
    everywhere with identity key [id], [[{id: 1, v: x}]] merged with
    [[{id: 1, v: y}, {id: 2, v: z}]] is [[{id: 1, v: y}, {id: 2, v: z}]]. *)
Lemma merge_arrays_of_hashes_deep_search (config : MergerConfig) (la ra : attrs)
        (ll rl : list Node) (node_coord : NodeCoords) (path : string) :
  aoh_merge_mode config node_coord = AoHMergeOpts.DEEP ->
  Forall (fun record => is_dict record = true) ll ->
  _merge_arrays_of_hashes config (Sequence la ll) (Sequence ra rl) node_coord path
  = (let! ll' := aoh_deep_records config (Sequence ra rl) path 0 rl ll in
     Ok (Out (Sequence la ll') (Sequence la ll')))
  /\ (forall mode,
        let merged :=
          Doc.seq [Doc.map [(Doc.key "id", Doc.int 1); (Doc.key "v", Doc.str "y")];
                   Doc.map [(Doc.key "id", Doc.int 2); (Doc.key "v", Doc.str "z")]] in
        _merge_lists (default_config mode)
          (Doc.seq [Doc.map [(Doc.key "id", Doc.int 1); (Doc.key "v", Doc.str "x")]])
          (Doc.seq [Doc.map [(Doc.key "id", Doc.int 1); (Doc.key "v", Doc.str "y")];
                    Doc.map [(Doc.key "id", Doc.int 2); (Doc.key "v", Doc.str "z")]])
          None None ""
        = Ok (Out merged merged)).
Proof.
  intros Hmode Hall. split.
  - unfold _merge_arrays_of_hashes, merge_arrays_of_hashes_open.
    rewrite Hmode.
    destruct rl as [|ele rl']; [reflexivity|].
    now rewrite aoh_loop_deep.
  - intros mode. reflexivity.
Qed.

(** The lemma at work on the lists of the example. *)
Example merge_arrays_of_hashes_deep_search_example :
  let target := [Doc.map [(Doc.key "id", Doc.int 1); (Doc.key "v", Doc.str "x")]] in
  let incoming := [Doc.map [(Doc.key "id", Doc.int 1); (Doc.key "v", Doc.str "y")];
                   Doc.map [(Doc.key "id", Doc.int 2); (Doc.key "v", Doc.str "z")]] in
  let config := default_config AnchorConflictResolutions.ABORT in
  aoh_merge_mode config (root_coords (Doc.seq incoming)) = AoHMergeOpts.DEEP
  /\ Forall (fun record => is_dict record = true) target
  /\ _merge_arrays_of_hashes config (Doc.seq target) (Doc.seq incoming)
       (root_coords (Doc.seq incoming)) ""
     = Ok (Out (Doc.seq incoming) (Doc.seq incoming)).
Proof.
  intros target incoming config.
  assert (Forall (fun record => is_dict record = true) target) as Hall
      by (repeat constructor).
  split; [reflexivity|]. split; [exact Hall|].
  exact (proj1 (merge_arrays_of_hashes_deep_search
                  config bare bare target incoming
                  (root_coords (Doc.seq incoming)) "" eq_refl Hall)).
Qed.

(** C7, where the code departs from it.  The policy is DEEP for arrays
    of hashes and RIGHT for mappings; the target list is [[{id: 1, v:
    x}]], the incoming list [[{id: 1, v: y}]].  The incoming record
    finds the target record with the same [id], and the mapping rule,
    run on the pair, gives the incoming record.  The loop binds what the
    rule returns to its loop variable and to nothing else
    ([lhs_hash = self._merge_dicts(...)]), so that the list keeps the
    target record: the incoming record is neither merged by the rule in
    place nor appended.  [_merge_dicts] itself stores what its nested
    calls return ([lhs[key] = self._merge_dicts(...)]). *)
Theorem merge_arrays_of_hashes_deep_result_dropped :
  let config := hash_config HashMergeOpts.RIGHT in
  let kept := Doc.map [(Doc.key "id", Doc.int 1); (Doc.key "v", Doc.str "x")] in
  let record := Doc.map [(Doc.key "id", Doc.int 1); (Doc.key "v", Doc.str "y")] in
  let incoming := Doc.seq [record] in
  aoh_merge_mode config (root_coords incoming) = AoHMergeOpts.DEEP
  /\ _merge_dicts config kept record (Some incoming) (Some (RefIdx 0)) "[0]"
     = Ok (Out kept record)
  /\ _merge_arrays_of_hashes config (Doc.seq [kept]) incoming
                             (root_coords incoming) ""
     = Ok (Out (Doc.seq [kept]) (Doc.seq [kept]))
  /\ _merge_lists config (Doc.seq [kept]) incoming None None ""
     = Ok (Out (Doc.seq [kept]) (Doc.seq [kept])).
Proof. repeat split; reflexivity. Qed.

(** ** Renaming a conflicting anchor *)

Lemma str_length_app (s1 s2 : string) :
  String.length (s1 ++ s2) = String.length s1 + String.length s2.
Proof. induction s1 as [|c s1 IH]; simpl; [reflexivity | now rewrite IH]. Qed.

Section RenameFacts.
Context `{Externals}.

Lemma next_anchor_longer (anchor : akey) :
  anchor_len anchor < anchor_len (next_anchor anchor).
Proof.
  unfold anchor_len, next_anchor. simpl.
  rewrite str_length_app. simpl. lia.
Qed.

Lemma known_iff (anchor : akey) (known : list akey) :
  existsb (akey_eqb anchor) known = true <-> In anchor known.
Proof.
  rewrite existsb_exists. split.
  - intros (x & Hin & E). apply akey_eqb_eq in E. now subst.
  - intros Hin. exists anchor. split; [exact Hin | apply akey_eqb_refl].
Qed.

Lemma filter_shrinks {A : Type} (p q : A -> bool) (l : list A) (a : A) :
  (forall x, q x = true -> p x = true) ->
  In a l -> p a = true -> q a = false ->
  length (List.filter q l) < length (List.filter p l).
Proof.
  intros Hqp Hin Hp Hq.
  assert (forall l', length (List.filter q l') <= length (List.filter p l')) as Hle.
  { induction l' as [|x l' IH]; simpl; [lia|].
    destruct (q x) eqn:Eq.
    - rewrite (Hqp _ Eq). simpl. lia.
    - destruct (p x); simpl; lia. }
  induction l as [|x l IH]; [destruct Hin|].
  simpl. destruct Hin as [->|Hin].
  - rewrite Hp, Hq. simpl. specialize (Hle l). lia.
  - specialize (IH Hin). destruct (q x) eqn:Eq.
    + rewrite (Hqp _ Eq). simpl. lia.
    + destruct (p x); simpl; lia.
Qed.

(** The loop leaves by its condition before the bound is reached, as
    soon as the names at least as long as the current one that are known
    are no more than the bound. *)
Lemma calc_unique_loop_spec (known : list akey) (fuel : nat) :
  forall anchor,
    length (List.filter (fun k => Nat.leb (anchor_len anchor) (anchor_len k)) known) <= fuel ->
    exists n,
      calc_unique_loop fuel anchor known = Some (Nat.iter n next_anchor anchor)
      /\ ~ In (Nat.iter n next_anchor anchor) known
      /\ forall m, m < n -> In (Nat.iter m next_anchor anchor) known.
Proof.
  induction fuel as [|fuel IH]; intros anchor Hlen.
  - destruct (existsb (akey_eqb anchor) known) eqn:E.
    + apply known_iff in E.
      assert (In anchor (List.filter (fun k => Nat.leb (anchor_len anchor) (anchor_len k)) known))
        as Hin.
      { apply filter_In. split; [exact E|]. apply Nat.leb_le. lia. }
      destruct (List.filter _ known); [destruct Hin | simpl in Hlen; lia].
    + exists 0. simpl. rewrite E. repeat split.
      * intros Hin. apply known_iff in Hin. congruence.
      * intros m Hm. lia.
  - destruct (existsb (akey_eqb anchor) known) eqn:E.
    + pose proof E as Hin. apply known_iff in Hin.
      destruct (IH (next_anchor anchor)) as (n & Hrun & Hfresh & Hbefore).
      { pose proof (next_anchor_longer anchor) as Hlonger.
        assert (length (List.filter (fun k => Nat.leb (anchor_len (next_anchor anchor)) (anchor_len k)) known)
                < length (List.filter (fun k => Nat.leb (anchor_len anchor) (anchor_len k)) known));
          [|lia].
        apply (filter_shrinks _ _ known anchor).
        - intros x Hx. apply Nat.leb_le in Hx. apply Nat.leb_le. lia.
        - exact Hin.
        - apply Nat.leb_le. lia.
        - apply Nat.leb_gt. lia. }
      exists (S n). rewrite !Nat.iter_succ_r. simpl. rewrite E.
      repeat split; [exact Hrun | exact Hfresh |].
      intros [|m] Hm; [exact Hin|].
      rewrite Nat.iter_succ_r. apply Hbefore. lia.
    + exists 0. simpl. rewrite E. repeat split.
      * intros Hin. apply known_iff in Hin. congruence.
      * intros m Hm. lia.
Qed.

(** [_calc_unique_anchor] returns: the bound it is run with is never
    reached. *)
Lemma _calc_unique_anchor_spec (anchor : akey) (known : list akey) :
  exists n,
    _calc_unique_anchor anchor known = Some (Nat.iter n next_anchor anchor)
    /\ ~ In (Nat.iter n next_anchor anchor) known
    /\ forall m, m < n -> In (Nat.iter m next_anchor anchor) known.
Proof. apply calc_unique_loop_spec, filter_length_le. Qed.
End RenameFacts.

Lemma node_attrs_with_attrs (a : attrs) (n : Node) :
  node_attrs (with_attrs a n) = a.
Proof. destruct n; reflexivity. Qed.

Lemma dict_get_In (anchor : akey) (x : Node) (anchors : adict) :
  dict_get akey_eqb anchor anchors = Some x -> In anchor (map fst anchors).
Proof.
  induction anchors as [|[k v] anchors IH]; simpl; [discriminate|].
  destruct (akey_eqb k anchor) eqn:E.
  - apply akey_eqb_eq in E. now left.
  - intros Hget. right. now apply IH.
Qed.

(** The round of the anchor pass for a name with a scalar on the target
    side. *)
Lemma resolve_conflict_scalar `{Externals} (config : MergerConfig)
      (lhs_anchors rhs_anchors : adict) (docs : Node * Node)
      (anchor : akey) (a : attrs) (v : scalar) (reader_alias : Node) :
  dict_get akey_eqb anchor lhs_anchors = Some (Scalar a v) ->
  dict_get akey_eqb anchor rhs_anchors = Some reader_alias ->
  resolve_conflict config lhs_anchors rhs_anchors docs anchor
  = if negb (py_eq (Scalar a v) reader_alias) then
      match anchor_merge_mode config with
      | AnchorConflictResolutions.RENAME =>
          match _calc_unique_anchor
                  anchor (map fst lhs_anchors ++ map fst rhs_anchors) with
          | Some new_anchor =>
              Ok (fst docs, rename_anchor (snd docs) anchor new_anchor)
          | None => Err Diverges
          end
      | AnchorConflictResolutions.LEFT =>
          let! rhs := _overwrite_aliased_values (fst docs) (snd docs) anchor in
          Ok (fst docs, rhs)
      | AnchorConflictResolutions.RIGHT =>
          let! data := _overwrite_aliased_values (snd docs) (fst docs) anchor in
          Ok (data, snd docs)
      | AnchorConflictResolutions.ABORT => Err (SysExit 4 (abort_msg anchor))
      end
    else Ok docs.
Proof.
  intros Hprime Hreader. unfold resolve_conflict, anchor_item.
  rewrite Hprime, Hreader. reflexivity.
Qed.


(** ** The anchor pass *)

Lemma named_write_strip (x : Node) :
  named_write (delete_all_comments x)
  = map (fun w => (fst w, delete_all_comments (snd w))) (named_write x).
Proof.
  unfold named_write.
  destruct x as [[[[name|]|] c] v|[[[name|]|] c] l|[[[name|]|] c] m]; reflexivity.
Qed.

(** Stripping the comments changes no anchor: the scan of the stripped
    document makes the same writes, of the stripped nodes. *)
Lemma anchor_writes_strip (dom : Node) :
  anchor_writes (delete_all_comments dom)
  = map (fun w => (fst w, delete_all_comments (snd w))) (anchor_writes dom).
Proof.
  induction dom as [a v|a l IH|a m IH] using Node_nested_ind; simpl.
  - destruct (anchor_attr a); reflexivity.
  - induction IH as [|x l Hx _ IHl]; simpl; [reflexivity|].
    now rewrite map_app, Hx, IHl.
  - induction IH as [|[k x] m Hx _ IHm]; simpl; [reflexivity|].
    simpl in Hx. rewrite !map_app, IHm.
    rewrite (named_write_strip x).
    change (node_of_key (Key (strip_comment (key_attrs k)) (key_value k)))
      with (delete_all_comments (node_of_key k)).
    rewrite (named_write_strip (node_of_key k)).
    destruct x as [ax vx|ax lx|ax mx]; simpl; try reflexivity;
      simpl in Hx; now rewrite Hx.
Qed.

Lemma first_write_map name (f : Node -> Node) writes :
  first_write name (map (fun w => (fst w, f (snd w))) writes)
  = option_map f (first_write name writes).
Proof.
  unfold first_write. induction writes as [|w writes IH]; simpl.
  - reflexivity.
  - destruct (akey_eqb (fst w) name); [reflexivity | exact IH].
Qed.

Lemma scan_for_anchors_strip (dom : Node) (name : akey) :
  dict_get akey_eqb name (scan_for_anchors (delete_all_comments dom) [])
  = option_map delete_all_comments
      (dict_get akey_eqb name (scan_for_anchors dom [])).
Proof.
  rewrite !scan_for_anchors_get, anchor_writes_strip. simpl.
  unfold last_write. rewrite <- map_rev, first_write_map.
  destruct (first_write name (rev (anchor_writes dom))); reflexivity.
Qed.

Lemma dict_has_get (name : akey) (anchors : adict) :
  dict_has akey_eqb name anchors = true
  <-> exists x, dict_get akey_eqb name anchors = Some x.
Proof.
  unfold dict_has. destruct (dict_get akey_eqb name anchors) as [x|].
  - split; [eauto | reflexivity].
  - split; [discriminate | intros [x Hx]; discriminate].
Qed.

Lemma shared_anchors_In (lhs_anchors rhs_anchors : adict) (anchor : akey) :
  In anchor (shared_anchors lhs_anchors rhs_anchors)
  <-> dict_has akey_eqb anchor lhs_anchors = true
      /\ dict_has akey_eqb anchor rhs_anchors = true.
Proof.
  unfold shared_anchors. rewrite filter_In. split.
  - intros [Hin Hl]. split; [exact Hl|].
    apply dict_has_get.
    induction rhs_anchors as [|[k x] rhs_anchors IH]; [destruct Hin|].
    simpl. destruct (akey_eqb k anchor) eqn:E; [eauto|].
    destruct Hin as [Hk|Hin].
    + simpl in Hk. subst k. rewrite akey_eqb_refl in E. discriminate.
    + now apply IH.
  - intros [Hl Hr]. split; [|exact Hl].
    apply dict_has_get in Hr as [x Hx]. eapply dict_get_In, Hx.
Qed.

Section AnchorPass.
Context `{Externals}.

(** A round that fails whatever the documents stops the loop, at that
    round or before. *)
Lemma resolve_loop_fails (config : MergerConfig) (lhs_anchors rhs_anchors : adict)
      (anchor : akey) (conflicts : list akey) :
  In anchor conflicts ->
  (forall docs, exists f,
      resolve_conflict config lhs_anchors rhs_anchors docs anchor = Err f) ->
  forall docs, exists docs' f,
      resolve_loop config lhs_anchors rhs_anchors conflicts docs = (docs', Some f).
Proof.
  intros Hin Hfail.
  induction conflicts as [|c conflicts IH]; [destruct Hin|].
  intros docs. simpl.
  destruct (resolve_conflict config lhs_anchors rhs_anchors docs c) as [docs1|f] eqn:E.
  - destruct Hin as [->|Hin].
    + destruct (Hfail docs) as [f Hf]. congruence.
    + apply IH, Hin.
  - eauto.
Qed.

(** The round for a name whose node on the target side is a mapping or a
    sequence: neither the incoming node nor the policy is looked at. *)
Lemma resolve_conflict_container (config : MergerConfig)
      (lhs_anchors rhs_anchors : adict) (docs : Node * Node)
      (anchor : akey) (prime_alias : Node) :
  dict_get akey_eqb anchor lhs_anchors = Some prime_alias ->
  is_dict prime_alias || is_list prime_alias = true ->
  dict_has akey_eqb anchor rhs_anchors = true ->
  resolve_conflict config lhs_anchors rhs_anchors docs anchor
  = Err (SysExit 142 (if is_dict prime_alias then dict_anchor_msg
                      else list_anchor_msg)).
Proof.
  intros Hprime Hkind Hreader.
  apply dict_has_get in Hreader as [reader_alias Hreader].
  unfold resolve_conflict, anchor_item. rewrite Hprime, Hreader.
  destruct prime_alias; try discriminate; reflexivity.
Qed.

(** Let a name be recorded by the anchor scan of both documents, the
    node recorded for the target being a mapping or a sequence.  The
    round of the anchor pass for that name is a fatal failure (code 142)
    whatever the policy and whatever the incoming side holds, so that no
    comparison is made and no conflict mode applied; and [merge_with]
    ends in a failure of the anchor pass, at that round or before,
    without any structural merge being dispatched. *)
Lemma merge_with_recorded_container_anchor (self : Merger) (rhs : Node)
        (anchor : akey) (prime_alias : Node) :
  dict_get akey_eqb anchor (scan_for_anchors (data self) []) = Some prime_alias ->
  is_dict prime_alias || is_list prime_alias = true ->
  dict_has akey_eqb anchor (scan_for_anchors rhs []) = true ->
  (forall config' rhs_anchors' docs,
      dict_has akey_eqb anchor rhs_anchors' = true ->
      resolve_conflict config' (scan_for_anchors (data self) []) rhs_anchors'
                       docs anchor
      = Err (SysExit 142 (if is_dict prime_alias then dict_anchor_msg
                          else list_anchor_msg)))
  /\ exists f data', merge_with self rhs = AnchorFailure f data'.
Proof.
  intros Hprime Hkind Hreader.
  assert (dict_has akey_eqb anchor
            (scan_for_anchors (delete_all_comments rhs) []) = true) as Hreader'.
  { apply dict_has_get in Hreader as [x Hx]. apply dict_has_get.
    rewrite scan_for_anchors_strip, Hx. simpl. eauto. }
  split.
  - intros config' rhs_anchors' docs Hr.
    exact (resolve_conflict_container _ _ _ docs _ _ Hprime Hkind Hr).
  - unfold merge_with, _resolve_anchor_conflicts.
    destruct (resolve_loop_fails
                (config self) (scan_for_anchors (data self) [])
                (scan_for_anchors (delete_all_comments rhs) []) anchor
                (shared_anchors (scan_for_anchors (data self) [])
                                (scan_for_anchors (delete_all_comments rhs) [])))
      with (docs := (data self, delete_all_comments rhs))
      as (docs' & f & Hloop).
    + apply shared_anchors_In. split; [|exact Hreader'].
      apply dict_has_get. eauto.
    + intros docs. eexists.
      exact (resolve_conflict_container _ _ _ docs _ _ Hprime Hkind Hreader').
    + rewrite Hloop. eauto.
Qed.
End AnchorPass.

(** The lemma at work: both documents anchor a mapping as [D], in the
    position of a value. *)
Example merge_with_recorded_container_anchor_example :
  let shared x := Mapping (anchored "D") [(Doc.key "x", Doc.int x)] in
  let self := {| data := Doc.map [(Doc.key "d", shared 1%Z)];
                 config := default_config AnchorConflictResolutions.RENAME |} in
  let rhs := Doc.map [(Doc.key "d", shared 2%Z)] in
  dict_get akey_eqb (Some "D") (scan_for_anchors (data self) []) = Some (shared 1%Z)
  /\ is_dict (shared 1%Z) || is_list (shared 1%Z) = true
  /\ dict_has akey_eqb (Some "D") (scan_for_anchors rhs []) = true
  /\ exists f data', @merge_with sample_externals self rhs = AnchorFailure f data'.
Proof.
  intros shared self rhs.
  repeat (split; [reflexivity|]).
  exact (proj2 (@merge_with_recorded_container_anchor
                  sample_externals self rhs (Some "D") (shared 1%Z)
                  eq_refl eq_refl eq_refl)).
Qed.

(** C2, where the code departs from it.  Both documents define the
    anchor [D] on a mapping, each in a sequence: [{l: [&D {id: 1}]}] and
    [{l: [&D {id: 2}]}].  The anchor scan, which is to find all the
    anchors of a document, goes into a mapping or a sequence that is an
    element of a sequence without a look at the anchor it carries, so
    that it records [D] for neither document although a node of each
    carries it.  The anchor pass then has no name to stop at: whatever
    the conflict mode, the merge does not fail and the merged document
    holds the two mappings, both anchored [D]. *)
Theorem merge_with_container_anchor_unrecorded
        (mode : AnchorConflictResolutions.t) :
  let record z := Mapping (anchored "D") [(Doc.key "id", Doc.int z)] in
  let self := {| data := Doc.map [(Doc.key "l", Doc.seq [record 1%Z])];
                 config := default_config mode |} in
  let rhs := Doc.map [(Doc.key "l", Doc.seq [record 2%Z])] in
  occurrences (Some "D") (data self) = [record 1%Z]
  /\ occurrences (Some "D") rhs = [record 2%Z]
  /\ scan_for_anchors (data self) [] = []
  /\ scan_for_anchors rhs [] = []
  /\ @merge_with sample_externals self rhs
     = Merged {| data := Doc.map [(Doc.key "l",
                                   Doc.seq [record 1%Z; record 2%Z])];
                 config := default_config mode |}.
Proof. intros record self rhs. repeat split; reflexivity. Qed.

Section AbortMode.
Context `{Externals}.


End AbortMode.



(** ** A document whose root is a scalar *)

Section ScalarRoot.
Context `{Externals}.

Lemma resolve_conflict_scalar_root (config : MergerConfig)
      (lhs_anchors rhs_anchors : adict) (docs docs' : Node * Node)
      (anchor : akey) (a : attrs) (v : scalar) :
  snd docs = Scalar a v ->
  resolve_conflict config lhs_anchors rhs_anchors docs anchor = Ok docs' ->
  exists a', snd docs' = Scalar a' v.
Proof.
  intros Hroot. unfold resolve_conflict.
  destruct (anchor_item lhs_anchors anchor) as [prime_alias|]; simpl;
    [|discriminate].
  destruct (anchor_item rhs_anchors anchor) as [reader_alias|]; simpl;
    [|discriminate].
  destruct prime_alias as [pa pv| |]; try discriminate.
  destruct (negb _).
  - destruct (anchor_merge_mode config).
    + destruct (_calc_unique_anchor _ _); [|discriminate].
      intros [= <-]. simpl. rewrite Hroot. simpl. eauto.
    + unfold _overwrite_aliased_values.
      destruct (get_nodes _ _); simpl; [|discriminate].
      rewrite Hroot. simpl. intros [= <-]. simpl. eauto.
    + destruct (_overwrite_aliased_values _ _ _); simpl; [|discriminate].
      intros [= <-]. simpl. eauto.
    + discriminate.
  - intros [= <-]. eauto.
Qed.

Lemma resolve_loop_scalar_root (config : MergerConfig)
      (lhs_anchors rhs_anchors : adict) (v : scalar) (conflicts : list akey) :
  forall docs a,
    snd docs = Scalar a v ->
    exists a', snd (fst (resolve_loop config lhs_anchors rhs_anchors conflicts docs))
               = Scalar a' v.
Proof.
  induction conflicts as [|c conflicts IH]; intros docs a Hroot; simpl.
  - eauto.
  - destruct (resolve_conflict config lhs_anchors rhs_anchors docs c)
      as [docs1|f] eqn:E.
    + destruct (resolve_conflict_scalar_root _ _ _ _ _ _ _ _ Hroot E) as [a1 H1].
      eapply IH, H1.
    + simpl. eauto.
Qed.

(** C10, as the code has it.  On an incoming document whose root is a
    scalar, [merge_with] strips the comments, runs the anchor pass and
    dispatches no structural merge: the call ends as the anchor pass
    ends, in its failure when it fails, and otherwise silently with the
    target as the pass left it.  When the anchor the root carries is not
    one the scan records for the target, or the root has no anchor
    attribute, the call ends silently and the target is unchanged. *)
Theorem merge_with_scalar_root (self : Merger) (a : attrs) (v : scalar) :
  let rhs := Scalar a v in
  merge_with self rhs
  = match _resolve_anchor_conflicts self (delete_all_comments rhs) with
    | (docs, Some f) => AnchorFailure f (fst docs)
    | (docs, None) =>
        Merged {| data := fst docs;
                  config := prepare (config self) (snd docs) |}
    end
  /\ (match anchor_attr a with
      | Some name =>
          dict_has akey_eqb name (scan_for_anchors (data self) []) = false
      | None => True
      end ->
      merge_with self rhs
      = Merged {| data := data self;
                  config := prepare (config self) (delete_all_comments rhs) |}).
Proof.
  intros rhs. split.
  - unfold merge_with, _resolve_anchor_conflicts.
    destruct (resolve_loop_scalar_root
                (config self) (scan_for_anchors (data self) [])
                (scan_for_anchors (delete_all_comments rhs) []) v
                (shared_anchors (scan_for_anchors (data self) [])
                                (scan_for_anchors (delete_all_comments rhs) []))
                (data self, delete_all_comments rhs) (strip_comment a) eq_refl)
      as [a' Ha'].
    destruct (resolve_loop _ _ _ _ _) as [docs [f|]]; [reflexivity|].
    simpl in Ha'. rewrite Ha'. reflexivity.
  - intros Hfree. unfold merge_with, _resolve_anchor_conflicts, shared_anchors.
    simpl. destruct (anchor_attr a) as [name|]; simpl.
    + now rewrite Hfree.
    + reflexivity.
Qed.
End ScalarRoot.

(** The statement at work: the incoming scalar carries an anchor the
    target does not have. *)
Lemma merge_with_scalar_root_witness :
  let self := {| data := Doc.map [(Doc.key "k", Doc.anchored_int "A" 1)];
                 config := default_config AnchorConflictResolutions.ABORT |} in
  dict_has akey_eqb (Some "B") (scan_for_anchors (data self) []) = false
  /\ @merge_with sample_externals self (Doc.anchored_int "B" 2) = Merged self.
Proof.
  intros self. split; [reflexivity|].
  exact (proj2 (@merge_with_scalar_root sample_externals self (anchored "B") (PyInt 2))
               eq_refl).
Defined.

(** C10 fails as stated.  The target is [{k: &A 1}], the incoming
    document is the scalar [&A 2] and the conflict mode is ABORT: the
    call does not end silently, the anchor pass stops it with a fatal
    failure. *)
Lemma merge_with_scalar_root_not_silent :
  let self := {| data := Doc.map [(Doc.key "k", Doc.anchored_int "A" 1)];
                 config := default_config AnchorConflictResolutions.ABORT |} in
  is_dict (Doc.anchored_int "A" 2) || is_list (Doc.anchored_int "A" 2) = false
  /\ @merge_with sample_externals self (Doc.anchored_int "A" 2)
     = AnchorFailure (SysExit 4 "Aborting due to anchor conflict, A") (data self)
  /\ forall self', @merge_with sample_externals self (Doc.anchored_int "A" 2)
                   <> Merged self'.
Proof. repeat split; try reflexivity. discriminate. Qed.

(** ** Keeping one side of a conflict *)

(** C5, at a failing input.  The target is [{k1: v, k2: &A 1}] and the
    incoming document [{x: &A 2}].  The anchor [A] is recorded for the
    target, but [search_for_anchor] looks at the first entry of a mapping
    only and comes back without a path; the path resolver is then asked
    with no path at all, whatever resolver it is, and under KEEP_LEFT the
    round of the anchor pass for [A] is whatever that query gives. *)
Theorem search_for_anchor_first_entry_only `{Externals} :
  let target := Doc.map [(Doc.key "k1", Doc.str "v");
                         (Doc.key "k2", Doc.anchored_int "A" 1)] in
  let incoming := Doc.map [(Doc.key "x", Doc.anchored_int "A" 2)] in
  dict_get akey_eqb (Some "A") (scan_for_anchors target [])
  = Some (Doc.anchored_int "A" 1)
  /\ search_for_anchor target (Some "A") "" = None
  /\ _overwrite_aliased_values target incoming (Some "A")
     = (let! coords := get_nodes target None in
        recursive_anchor_replace incoming (Some "A")
          match coords with
          | node_coord :: _ => node node_coord
          | [] => py_none
          end)
  /\ resolve_conflict (default_config AnchorConflictResolutions.LEFT)
       (scan_for_anchors target []) (scan_for_anchors incoming [])
       (target, incoming) (Some "A")
     = (let! rhs := _overwrite_aliased_values target incoming (Some "A") in
        Ok (target, rhs)).
Proof. repeat split; reflexivity. Qed.

(** Without a key that carries the anchor the first loop of
    [recursive_anchor_replace] changes nothing. *)
Lemma replace_keys_no_hit {V : Type} (anchor_val : akey) (repl_node : Node)
      (data : list (keynode * V)) :
  forallb (fun kv => negb (anchor_is (key_attrs (fst kv)) anchor_val)) data = true ->
  replace_keys anchor_val repl_node data = Ok data.
Proof.
  intros Hclear. unfold replace_keys.
  assert (forall idx,
             List.filter (fun hit => anchor_is (key_attrs (snd hit)) anchor_val)
                         (enumerate_from idx (map fst data)) = []) as ->;
    [|reflexivity].
  induction data as [|[k v] data IH]; intros idx; simpl.
  - reflexivity.
  - simpl in Hclear. apply andb_prop in Hclear as [Hk Hrest].
    apply negb_true_iff in Hk. rewrite Hk. now apply IH.
Qed.

(** The part of C5 that holds, away from keys: once a node of the
    retained side is at hand, [recursive_anchor_replace] puts it in every
    value position and every sequence element that carries the anchor. *)
Lemma recursive_anchor_replace_substitute (anchor_val : akey) (repl_node : Node)
      (data : Node) :
  keys_clear anchor_val data = true ->
  recursive_anchor_replace data anchor_val repl_node
  = Ok (substitute anchor_val repl_node data).
Proof.
  induction data as [a v|a l IH|a m IH] using Node_nested_ind; intros Hclear.
  - reflexivity.
  - simpl in *.
    assert (sequence_res
              (map (fun ele =>
                      if anchor_is (node_attrs ele) anchor_val
                      then Ok repl_node
                      else recursive_anchor_replace ele anchor_val repl_node) l)
            = Ok (map (fun ele =>
                         if anchor_is (node_attrs ele) anchor_val then repl_node
                         else substitute anchor_val repl_node ele) l)) as ->;
      [|reflexivity].
    induction IH as [|x l Hx _ IHl]; simpl; [reflexivity|].
    simpl in Hclear. apply andb_prop in Hclear as [Hx' Hrest].
    rewrite (IHl Hrest).
    destruct (anchor_is (node_attrs x) anchor_val); simpl; [reflexivity|].
    simpl in Hx'. now rewrite (Hx Hx').
  - simpl in *.
    rewrite replace_keys_no_hit.
    + simpl.
      assert (sequence_values
                (map (fun kv =>
                        (fst kv,
                         if anchor_is (node_attrs (snd kv)) anchor_val
                         then Ok repl_node
                         else recursive_anchor_replace (snd kv) anchor_val repl_node))
                     m)
              = Ok (map (fun kv =>
                           (fst kv,
                            if anchor_is (node_attrs (snd kv)) anchor_val
                            then repl_node
                            else substitute anchor_val repl_node (snd kv)))
                        m)) as ->; [|reflexivity].
      induction IH as [|[k x] m Hx _ IHm]; simpl; [reflexivity|].
      simpl in Hclear. apply andb_prop in Hclear as [Hkx Hrest].
      apply andb_prop in Hkx as [_ Hx'].
      rewrite (IHm Hrest). simpl in Hx.
      destruct (anchor_is (node_attrs x) anchor_val); simpl; [reflexivity|].
      simpl in Hx'. now rewrite (Hx Hx').
    + clear IH. induction m as [|[k x] m IHm]; simpl; [reflexivity|].
      simpl in Hclear. apply andb_prop in Hclear as [Hkx Hrest].
      apply andb_prop in Hkx as [Hk _]. rewrite Hk. simpl. now apply IHm.
Qed.

(** * Further properties of the Merger *)

(** ** Comments *)

Lemma strip_comment_clear (a : attrs) : no_comment (strip_comment a) = true.
Proof. reflexivity. Qed.

Lemma strip_comment_fixed (a : attrs) :
  no_comment a = true -> strip_comment a = a.
Proof.
  unfold no_comment, strip_comment. destruct a as [anc [c|]]; simpl;
    [discriminate | reflexivity].
Qed.

Lemma delete_all_comments_clears (dom : Node) :
  comment_free (delete_all_comments dom) = true.
Proof.
  induction dom as [a v|a l IH|a m IH] using Node_nested_ind; simpl.
  - reflexivity.
  - induction IH as [|x l Hx _ IHl]; simpl; [reflexivity|].
    now rewrite Hx.
  - induction IH as [|[k x] m Hx _ IHm]; simpl; [reflexivity|].
    simpl in Hx. now rewrite Hx.
Qed.

Lemma delete_all_comments_fixed (dom : Node) :
  comment_free dom = true -> delete_all_comments dom = dom.
Proof.
  induction dom as [a v|a l IH|a m IH] using Node_nested_ind; simpl; intros Hfree.
  - now rewrite strip_comment_fixed.
  - apply andb_prop in Hfree as [Ha Hl].
    rewrite strip_comment_fixed by exact Ha. f_equal.
    induction IH as [|x l Hx _ IHl]; simpl; [reflexivity|].
    simpl in Hl. apply andb_prop in Hl as [Hx' Hl].
    now rewrite Hx, IHl.
  - apply andb_prop in Hfree as [Ha Hm].
    rewrite strip_comment_fixed by exact Ha. f_equal.
    induction IH as [|[k x] m Hx _ IHm]; simpl; [reflexivity|].
    simpl in Hm. apply andb_prop in Hm as [Hkx Hm].
    apply andb_prop in Hkx as [Hk Hx'].
    simpl in Hx. rewrite Hx, IHm by assumption.
    rewrite strip_comment_fixed by exact Hk. now destruct k.
Qed.

(** X1.  After [delete_all_comments] no node of the document has a
    comment left, be it a mapping, a sequence, a key, a value or an
    element, and a second run changes nothing more. *)
Theorem delete_all_comments_complete (dom : Node) :
  comment_free (delete_all_comments dom) = true
  /\ delete_all_comments (delete_all_comments dom) = delete_all_comments dom.
Proof.
  split.
  - apply delete_all_comments_clears.
  - apply delete_all_comments_fixed, delete_all_comments_clears.
Qed.

Lemma rename_strip_attrs (anchor new_anchor : akey) (a : attrs) :
  strip_comment (rename_attrs anchor new_anchor a)
  = rename_attrs anchor new_anchor (strip_comment a).
Proof.
  unfold rename_attrs, anchor_is. simpl.
  destruct (anchor_attr a) as [v|]; [|reflexivity].
  destruct (akey_eqb v anchor); reflexivity.
Qed.

Lemma delete_all_comments_attrs (dom : Node) :
  node_attrs (delete_all_comments dom) = strip_comment (node_attrs dom).
Proof. destruct dom; reflexivity. Qed.

Lemma delete_all_comments_with_attrs (a : attrs) (dom : Node) :
  delete_all_comments (with_attrs a dom)
  = with_attrs (strip_comment a) (delete_all_comments dom).
Proof. destruct dom; reflexivity. Qed.

(** X2.  Stripping the comments and renaming an anchor do not interfere:
    the two passes can be run in either order, comments taking no part
    in the renaming and anchors none in the stripping. *)
Theorem delete_all_comments_rename_anchor (dom : Node) (anchor new_anchor : akey) :
  delete_all_comments (rename_anchor dom anchor new_anchor)
  = rename_anchor (delete_all_comments dom) anchor new_anchor.
Proof.
  induction dom as [a v|a l IH|a m IH] using Node_nested_ind; simpl.
  - now rewrite rename_strip_attrs.
  - f_equal.
    induction IH as [|x l Hx _ IHl]; simpl; [reflexivity|].
    now rewrite Hx, IHl.
  - f_equal.
    induction IH as [|[k x] m Hx _ IHm]; simpl; [reflexivity|].
    simpl in Hx.
    rewrite IHm, delete_all_comments_with_attrs, Hx, !rename_strip_attrs,
      delete_all_comments_attrs.
    reflexivity.
Qed.

(** ** Renaming an anchor, back and forth *)

Lemma rename_attrs_back (old new : akey) (a : attrs) :
  anchor_attr a <> Some new ->
  rename_attrs new old (rename_attrs old new a) = a.
Proof.
  intros Hnew. unfold rename_attrs, anchor_is.
  destruct a as [[v|] c]; simpl in *; [|reflexivity].
  destruct (akey_eqb v old) eqn:Eold; simpl.
  - rewrite akey_eqb_refl. apply akey_eqb_eq in Eold. subst v. reflexivity.
  - destruct (akey_eqb v new) eqn:Enew; [|reflexivity].
    apply akey_eqb_eq in Enew. congruence.
Qed.

Lemma with_attrs_rename_anchor (x y : attrs) (n : Node) (old new : akey) :
  with_attrs y (rename_anchor (with_attrs x n) old new)
  = with_attrs y (rename_anchor n old new).
Proof. destruct n; reflexivity. Qed.

Lemma with_attrs_own (n : Node) : with_attrs (node_attrs n) n = n.
Proof. destruct n; reflexivity. Qed.

(** X3.  Renaming is undone by renaming back, provided the new name was
    free: when no anchor that [rename_anchor] looks at is the new name,
    renaming [old] to [new] and then [new] to [old] gives the document
    back, anchors, comments and values. *)
Theorem rename_anchor_round_trip (dom : Node) (old new : akey) :
  ~ In (Some new) (rename_sites dom) ->
  rename_anchor (rename_anchor dom old new) new old = dom.
Proof.
  induction dom as [a v|a l IH|a m IH] using Node_nested_ind; simpl; intros Hfree.
  - rewrite rename_attrs_back; [reflexivity|]. intros E. apply Hfree. now left.
  - f_equal.
    induction IH as [|x l Hx _ IHl]; simpl; [reflexivity|].
    simpl in Hfree. rewrite in_app_iff in Hfree.
    rewrite Hx, IHl; [reflexivity| |]; intros Hin; apply Hfree; auto.
  - f_equal.
    induction IH as [|[k x] m Hx _ IHm]; simpl; [reflexivity|].
    simpl in Hx, Hfree.
    assert (anchor_attr (key_attrs k) <> Some new) as Hk
        by (intros E; apply Hfree; now left).
    assert (anchor_attr (node_attrs x) <> Some new) as Hv
        by (intros E; apply Hfree; right; now left).
    assert (~ In (Some new) (rename_sites x)) as Hx'
        by (intros E; apply Hfree; right; right; apply in_or_app; now left).
    rewrite IHm
      by (intros E; apply Hfree; right; right; apply in_or_app; now right).
    rewrite node_attrs_with_attrs, with_attrs_rename_anchor, (Hx Hx').
    rewrite !rename_attrs_back by assumption.
    rewrite with_attrs_own. now destruct k.
Qed.

(** The statement at work on a document that has the anchors [K] and
    [A]: renaming [A] to [B] and back. *)
Lemma rename_anchor_round_trip_witness :
  ~ In (Some (Some "B")) (rename_sites commented_doc)
  /\ rename_anchor (rename_anchor commented_doc (Some "A") (Some "B"))
                   (Some "B") (Some "A")
     = commented_doc.
Proof.
  assert (~ In (Some (Some "B")) (rename_sites commented_doc)) as Hfree.
  { simpl. intros H. repeat (destruct H as [H|H]; [discriminate|]). exact H. }
  split; [exact Hfree|].
  exact (rename_anchor_round_trip commented_doc (Some "A") (Some "B") Hfree).
Defined.

(** ** What the anchor scan records *)

Lemma anchor_writes_carry (dom : Node) :
  Forall (fun w => anchor_attr (node_attrs (snd w)) = Some (fst w))
         (anchor_writes dom).
Proof.
  assert (forall x, Forall (fun w => anchor_attr (node_attrs (snd w)) = Some (fst w))
                           (named_write x)) as Hnamed.
  { intros x. unfold named_write.
    destruct (anchor_attr (node_attrs x)) as [[name|]|] eqn:E;
      repeat constructor. exact E. }
  induction dom as [a v|a l IH|a m IH] using Node_nested_ind; simpl.
  - destruct (anchor_attr a) as [v'|] eqn:E; repeat constructor. exact E.
  - induction IH as [|x l Hx _ IHl]; simpl; [constructor|].
    apply Forall_app. split; assumption.
  - induction IH as [|[k x] m Hx _ IHm]; simpl; [constructor|].
    simpl in Hx. repeat (apply Forall_app; split); try apply Hnamed; try exact IHm.
    destruct x; [constructor | exact Hx | exact Hx].
Qed.

Lemma first_write_In (name : akey) (writes : list (akey * Node)) (x : Node) :
  first_write name writes = Some x -> In (name, x) writes.
Proof.
  unfold first_write. induction writes as [|[k y] writes IH]; simpl.
  - discriminate.
  - destruct (akey_eqb k name) eqn:E.
    + apply akey_eqb_eq in E. subst k. intros [= ->]. now left.
    + intros Hf. right. now apply IH.
Qed.

Lemma first_write_None (name : akey) (writes : list (akey * Node)) :
  first_write name writes = None <-> ~ In name (map fst writes).
Proof.
  unfold first_write. induction writes as [|[k y] writes IH]; simpl.
  - split; [intros _ [] | reflexivity].
  - destruct (akey_eqb k name) eqn:E.
    + apply akey_eqb_eq in E. subst k. split; [discriminate|].
      intros Hn. exfalso. apply Hn. now left.
    + apply akey_eqb_neq in E. rewrite IH. split.
      * intros Hn [Hk|Hin]; [congruence | contradiction].
      * intros Hn Hin. apply Hn. now right.
Qed.

Lemma dict_set_keys (k : akey) (x : Node) (anchors : adict) :
  map fst (dict_set akey_eqb k x anchors)
  = if dict_has akey_eqb k anchors then map fst anchors
    else map fst anchors ++ [k].
Proof.
  unfold dict_has. induction anchors as [|[k' y] anchors IH]; simpl.
  - reflexivity.
  - destruct (akey_eqb k' k) eqn:E; simpl; [reflexivity|].
    rewrite IH. destruct (dict_get akey_eqb k anchors); reflexivity.
Qed.

Lemma write_all_NoDup (writes : list (akey * Node)) :
  forall anchors,
    NoDup (map fst anchors) -> NoDup (map fst (write_all writes anchors)).
Proof.
  induction writes as [|[k x] writes IH]; intros anchors Hnd; simpl.
  - exact Hnd.
  - apply IH. simpl. rewrite dict_set_keys.
    destruct (dict_has akey_eqb k anchors) eqn:E; [exact Hnd|].
    apply NoDup_app. repeat split.
    + exact Hnd.
    + intros y Hy Hin. apply list_elem_of_In in Hy.
      apply list_elem_of_singleton in Hin. subst y.
      assert (dict_has akey_eqb k anchors = true); [|congruence].
      apply dict_has_get.
      clear -Hy. induction anchors as [|[k' z] anchors IHa]; [destruct Hy|].
      simpl. destruct (akey_eqb k' k) eqn:E; [eauto|].
      destruct Hy as [Hk|Hy]; [|now apply IHa].
      simpl in Hk. subst k'. rewrite akey_eqb_refl in E. discriminate.
    + apply NoDup_singleton.
Qed.

(** X4.  The dictionary the anchor scan builds is well formed: no name
    is listed twice, and the node recorded under a name is a node that
    carries that very name as its anchor. *)
Theorem scan_for_anchors_sound (dom : Node) :
  NoDup (map fst (scan_for_anchors dom []))
  /\ forall name x,
      dict_get akey_eqb name (scan_for_anchors dom []) = Some x ->
      anchor_attr (node_attrs x) = Some name.
Proof.
  split.
  - rewrite scan_for_anchors_writes. apply write_all_NoDup. constructor.
  - intros name x Hget. rewrite scan_for_anchors_get in Hget. simpl in Hget.
    destruct (last_write name (anchor_writes dom)) as [y|] eqn:E; [|discriminate].
    injection Hget as ->. unfold last_write in E.
    apply first_write_In, in_rev in E.
    pose proof (anchor_writes_carry dom) as Hall.
    rewrite Forall_forall in Hall.
    apply list_elem_of_In in E. exact (Hall _ E).
Qed.

Lemma scan_for_anchors_has (dom : Node) (name : akey) :
  dict_has akey_eqb name (scan_for_anchors dom []) = true
  <-> In name (map fst (anchor_writes dom)).
Proof.
  unfold dict_has. rewrite scan_for_anchors_get. simpl. unfold last_write.
  destruct (first_write name (rev (anchor_writes dom))) as [x|] eqn:E.
  - split; [intros _ | reflexivity].
    apply first_write_In, in_rev in E.
    apply in_map_iff. exists (name, x). now split.
  - split; [discriminate|]. intros Hin. exfalso.
    apply first_write_None in E. apply E.
    rewrite map_rev. now apply in_rev in Hin.
Qed.

Section SearchFacts.
Context `{Externals}.

Lemma search_for_anchor_written (dom : Node) (name : string) :
  forall path p,
    search_for_anchor dom (Some name) path = Some p ->
    In (Some name) (map fst (anchor_writes dom)).
Proof.
  assert (forall x, anchor_is (node_attrs x) (Some name) = true ->
                    In (Some name) (map fst (named_write x))) as Hnamed.
  { intros x Hx. unfold anchor_is in Hx. unfold named_write.
    destruct (anchor_attr (node_attrs x)) as [v|]; [|discriminate].
    apply akey_eqb_eq in Hx. subst v. now left. }
  induction dom as [a v|a l IH|a m IH] using Node_nested_ind; intros path p; simpl.
  - unfold anchor_is. destruct (anchor_attr a) as [v'|]; [|discriminate].
    destruct (akey_eqb v' (Some name)) eqn:E; [|discriminate].
    apply akey_eqb_eq in E. subst v'. intros _. now left.
  - destruct IH as [|x l Hx _]; [discriminate|].
    intros Hs. simpl. rewrite map_app. apply in_or_app. left. eapply Hx, Hs.
  - destruct IH as [|[k x] m Hx _]; [discriminate|].
    simpl in *. rewrite !map_app.
    destruct (anchor_is (key_attrs k) (Some name)) eqn:Ek.
    + intros _. apply in_or_app. left. apply in_or_app. left.
      now apply (Hnamed (node_of_key k)).
    + destruct (anchor_is (node_attrs x) (Some name)) eqn:Ex.
      * intros _. apply in_or_app. left. apply in_or_app. right.
        apply in_or_app. left. now apply Hnamed.
      * intros Hs. apply in_or_app. left. apply in_or_app. right.
        apply in_or_app. right.
        destruct x as [ax vx|ax lx|ax mx].
        -- simpl in Hs, Ex. rewrite Ex in Hs. discriminate.
        -- eapply Hx, Hs.
        -- eapply Hx, Hs.
Qed.

(** X5.  [search_for_anchor] gives a path only for a name the anchor scan
    records: whenever it returns a path for [name] in a document,
    [scan_for_anchors] has an entry for [name] in that document.  (The
    converse fails: the search follows first entries only.) *)
Theorem search_for_anchor_sound (dom : Node) (name path p : string) :
  search_for_anchor dom (Some name) path = Some p ->
  dict_has akey_eqb (Some name) (scan_for_anchors dom []) = true.
Proof.
  intros Hs. apply scan_for_anchors_has.
  eapply search_for_anchor_written, Hs.
Qed.
End SearchFacts.

(** The statement at work: the anchor sits on the first entries. *)
Lemma search_for_anchor_sound_witness :
  let dom := Doc.map [(Doc.key "aliases", Doc.seq [Doc.anchored_int "A" 1])] in
  @search_for_anchor sample_externals dom (Some "A") "" = Some "/aliases[0]"
  /\ dict_has akey_eqb (Some "A") (scan_for_anchors dom []) = true.
Proof.
  intros dom. split; [reflexivity|].
  exact (@search_for_anchor_sound sample_externals dom "A" "" "/aliases[0]" eq_refl).
Defined.

(** ** The fresh name *)

Section UniqueFacts.
Context `{Externals}.

Lemma str_app_nil_r (s : string) : (s ++ "")%string = s.
Proof. induction s as [|c s IH]; simpl; [reflexivity | now rewrite IH]. Qed.

Lemma str_app_assoc (s1 s2 s3 : string) :
  ((s1 ++ s2) ++ s3)%string = (s1 ++ (s2 ++ s3))%string.
Proof. induction s1 as [|c s1 IH]; simpl; [reflexivity | now rewrite IH]. Qed.

Lemma next_anchor_iter_prefix (anchor : akey) (n : nat) :
  exists suffix,
    akey_str (Nat.iter n next_anchor anchor) = (akey_str anchor ++ suffix)%string.
Proof.
  induction n as [|n [suffix IH]].
  - exists "". simpl. now rewrite str_app_nil_r.
  - simpl. rewrite IH. eexists. apply str_app_assoc.
Qed.

(** X6.  [_calc_unique_anchor] always ends with a name, the bound put on
    its loop is never what stops it; the name is in none of the known
    ones, it is the given name itself when that one is not known, and in
    every case it begins with the given name. *)
Theorem _calc_unique_anchor_fresh (anchor : akey) (known_anchors : list akey) :
  exists new_anchor,
    _calc_unique_anchor anchor known_anchors = Some new_anchor
    /\ ~ In new_anchor known_anchors
    /\ (~ In anchor known_anchors -> new_anchor = anchor)
    /\ exists suffix, akey_str new_anchor = (akey_str anchor ++ suffix)%string.
Proof.
  destruct (_calc_unique_anchor_spec anchor known_anchors)
    as (n & Hrun & Hfresh & Hbefore).
  exists (Nat.iter n next_anchor anchor). repeat split.
  - exact Hrun.
  - exact Hfresh.
  - intros Hnew. destruct n as [|n]; [reflexivity|].
    exfalso. apply Hnew. apply (Hbefore 0). lia.
  - apply next_anchor_iter_prefix.
Qed.
End UniqueFacts.

(** ** Lists that are appended to *)







(** ** Documents that bring nothing *)

Section Quiet.
Context `{Externals}.

(** The round of the anchor pass for a name whose two nodes are equal in
    value. *)
Lemma resolve_conflict_equal (config : MergerConfig)
      (lhs_anchors rhs_anchors : adict) (docs : Node * Node) (anchor : akey)
      (a : attrs) (v : scalar) (reader_alias : Node) :
  dict_get akey_eqb anchor lhs_anchors = Some (Scalar a v) ->
  dict_get akey_eqb anchor rhs_anchors = Some reader_alias ->
  py_eq (Scalar a v) reader_alias = true ->
  resolve_conflict config lhs_anchors rhs_anchors docs anchor = Ok docs.
Proof.
  intros Hl Hr Heq.
  rewrite (resolve_conflict_scalar _ _ _ _ _ _ _ _ Hl Hr), Heq. reflexivity.
Qed.

Lemma resolve_loop_quiet (config : MergerConfig) (lhs_anchors rhs_anchors : adict)
      (docs : Node * Node) (conflicts : list akey) :
  (forall anchor, In anchor conflicts ->
     resolve_conflict config lhs_anchors rhs_anchors docs anchor = Ok docs) ->
  resolve_loop config lhs_anchors rhs_anchors conflicts docs = (docs, None).
Proof.
  induction conflicts as [|c conflicts IH]; intros Hq; simpl.
  - reflexivity.
  - rewrite (Hq c) by now left. apply IH. intros anchor Hin. apply Hq. now right.
Qed.

(** X9.  Anchors that agree are no conflict.  When every name the scan
    records for both documents stands for a scalar in the target and for
    a node equal to it in value in the incoming document, the anchor
    pass changes neither document and raises nothing, whatever the
    conflict mode, ABORT included. *)
Theorem resolve_anchor_conflicts_agreeing (self : Merger) (rhs : Node) :
  (forall anchor prime_alias reader_alias,
      dict_get akey_eqb anchor (scan_for_anchors (data self) []) = Some prime_alias ->
      dict_get akey_eqb anchor (scan_for_anchors rhs []) = Some reader_alias ->
      is_dict prime_alias || is_list prime_alias = false
      /\ py_eq prime_alias reader_alias = true) ->
  _resolve_anchor_conflicts self rhs = ((data self, rhs), None).
Proof.
  intros Hagree. unfold _resolve_anchor_conflicts.
  apply resolve_loop_quiet. intros anchor Hin.
  apply shared_anchors_In in Hin as [Hl Hr].
  apply dict_has_get in Hl as [prime_alias Hl].
  apply dict_has_get in Hr as [reader_alias Hr].
  destruct (Hagree _ _ _ Hl Hr) as [Hkind Heq].
  destruct prime_alias as [a v| |]; try discriminate.
  eapply resolve_conflict_equal; eassumption.
Qed.

(** X10.  An empty incoming mapping and an empty incoming sequence leave
    the accumulated document as it is, whatever its kind and whatever
    the policy: [merge_with] returns without failure and [self.data] is
    unchanged. *)
Theorem merge_with_empty (self : Merger) (a : attrs) :
  merge_with self (Mapping a [])
  = Merged {| data := data self;
              config := prepare (config self) (Mapping (strip_comment a) []) |}
  /\ merge_with self (Sequence a [])
     = Merged {| data := data self;
                 config := prepare (config self) (Sequence (strip_comment a) []) |}.
Proof.
  split; reflexivity.
Qed.
End Quiet.

(** The statement at work: the same anchor with the same value on both
    sides, under ABORT. *)
Lemma resolve_anchor_conflicts_agreeing_witness :
  let self := {| data := Doc.map [(Doc.key "k", Doc.anchored_int "A" 1)];
                 config := default_config AnchorConflictResolutions.ABORT |} in
  let rhs := Doc.map [(Doc.key "l", Doc.anchored_int "A" 1)] in
  @_resolve_anchor_conflicts sample_externals self rhs = ((data self, rhs), None).
Proof.
  intros self rhs.
  apply (@resolve_anchor_conflicts_agreeing sample_externals self rhs).
  intros anchor prime_alias reader_alias Hl Hr.
  change (scan_for_anchors (data self) [])
    with [(Some "A", Doc.anchored_int "A" 1)] in Hl.
  change (scan_for_anchors rhs [])
    with [(Some "A", Doc.anchored_int "A" 1)] in Hr.
  cbn [dict_get] in Hl, Hr.
  destruct (akey_eqb (Some "A") anchor); [|discriminate].
  injection Hl as <-. injection Hr as <-. split; reflexivity.
Defined.

(** ** What a deep mapping merge keeps *)

Lemma NoDup_app_In {A : Type} (l1 l2 : list A) :
  NoDup (l1 ++ l2)
  <-> NoDup l1 /\ (forall x, In x l1 -> ~ In x l2) /\ NoDup l2.
Proof.
  rewrite NoDup_app. split; intros (H1 & H2 & H3); repeat split; try assumption.
  - intros x Hx Hin. apply (H2 x); now apply list_elem_of_In.
  - intros x Hx Hin. apply (H2 x); now apply list_elem_of_In.
Qed.

Lemma NoDup_cons_In {A : Type} (x : A) (l : list A) :
  NoDup (x :: l) <-> ~ In x l /\ NoDup l.
Proof.
  rewrite NoDup_cons. split; intros [H1 H2]; split; try assumption.
  - intros Hin. apply H1. now apply list_elem_of_In.
  - intros Hin. apply H1. now apply list_elem_of_In.
Qed.

Lemma key_eqb_id (k1 k2 : keynode) :
  key_eqb k1 k2 = true
  <-> key_norm (key_value k1) = key_norm (key_value k2).
Proof. apply scalar_eqb_norm. Qed.

Lemma dict_has_In_id (k : keynode) (d : entries) :
  dict_has key_eqb k d = true
  <-> In (key_norm (key_value k)) (map entry_id d).
Proof.
  split.
  - intros E. unfold dict_has in E. induction d as [|[k' v'] d IH]; simpl in *.
    + discriminate.
    + destruct (key_eqb k' k) eqn:Ek.
      * left. apply key_eqb_id in Ek. exact Ek.
      * right. apply IH. exact E.
  - intros Hin. destruct (dict_has key_eqb k d) eqn:E; [reflexivity|].
    apply dict_has_entry_id in E. contradiction.
Qed.

Lemma dict_has_ext (k : keynode) (d1 d2 : entries) :
  (In (key_norm (key_value k)) (map entry_id d1)
   <-> In (key_norm (key_value k)) (map entry_id d2)) ->
  dict_has key_eqb k d1 = dict_has key_eqb k d2.
Proof.
  intros H. destruct (dict_has key_eqb k d2) eqn:E.
  - apply dict_has_In_id. apply H. now apply dict_has_In_id.
  - apply dict_has_entry_id. intros Hin. apply dict_has_entry_id in E.
    apply E. now apply H.
Qed.

Lemma dict_set_ids (k : keynode) (v : Node) (d : entries) :
  dict_has key_eqb k d = true ->
  map entry_id (dict_set key_eqb k v d) = map entry_id d.
Proof.
  unfold dict_has. induction d as [|[k' v'] d IH]; simpl; [discriminate|].
  destruct (key_eqb k' k) eqn:Ek; simpl; [reflexivity|].
  intros H. f_equal. now apply IH.
Qed.

Lemma dict_set_In_other (k : keynode) (v : Node) (d : entries) kv :
  In kv d -> entry_id kv <> key_norm (key_value k) ->
  In kv (dict_set key_eqb k v d).
Proof.
  induction d as [|[k' v'] d IH]; simpl; [intros []|].
  intros [Heq|Hin] Hne.
  - subst kv. destruct (key_eqb k' k) eqn:Ek.
    + apply key_eqb_id in Ek. unfold entry_id in Hne. simpl in Hne. contradiction.
    + now left.
  - destruct (key_eqb k' k); right; [exact Hin | now apply IH].
Qed.

Lemma dict_set_In_new (k : keynode) (v : Node) (d : entries) :
  dict_has key_eqb k d = true ->
  exists k', In (k', v) (dict_set key_eqb k v d) /\ key_eqb k' k = true.
Proof.
  unfold dict_has. induction d as [|[k' v'] d IH]; simpl; [discriminate|].
  destruct (key_eqb k' k) eqn:Ek.
  - intros _. exists k'. split; [now left | exact Ek].
  - intros H. destruct (IH H) as (k'' & Hin & Hk). exists k''. split; [now right | exact Hk].
Qed.

Lemma dict_get_of_In (k k' : keynode) (v : Node) (d : entries) :
  NoDup (map entry_id d) -> In (k', v) d -> key_eqb k' k = true ->
  dict_get key_eqb k d = Some v.
Proof.
  induction d as [|[k0 v0] d IH]; simpl; [intros _ []|].
  intros Hnd [Heq|Hin] Hk.
  - injection Heq as -> ->. now rewrite Hk.
  - apply NoDup_cons_In in Hnd. destruct Hnd as [Hn Hnd].
    destruct (key_eqb k0 k) eqn:E0.
    + exfalso. apply Hn. apply key_eqb_id in E0, Hk.
      unfold entry_id at 1. simpl. rewrite E0, <- Hk.
      apply (in_map entry_id _ _ Hin).
    + now apply IH.
Qed.

Lemma dict_set_same (k : keynode) (v : Node) (d : entries) :
  dict_get key_eqb k d = Some v -> dict_set key_eqb k v d = d.
Proof.
  induction d as [|[k' v'] d IH]; simpl; [discriminate|].
  destruct (key_eqb k' k); intros H.
  - now injection H as ->.
  - f_equal. now apply IH.
Qed.

Lemma dict_insert_perm (pos : nat) (k : keynode) (v : Node) (lhs : entries) :
  NoDup (map entry_id ((k, v) :: lhs)) ->
  Permutation (dict_insert key_eqb pos k v lhs) ((k, v) :: lhs).
Proof.
  intros Hnd. destruct (le_lt_dec pos (length lhs)) as [Hle|Hgt].
  - rewrite dict_insert_new by assumption.
    rewrite <- Permutation_middle. now rewrite firstn_skipn.
  - unfold dict_insert.
    assert (Nat.leb (length lhs) pos = true) as -> by (apply Nat.leb_le; lia).
    rewrite dict_set_fresh.
    + symmetry. apply Permutation_cons_append.
    + apply dict_has_entry_id. simpl in Hnd.
      apply NoDup_cons_In in Hnd. exact (proj1 Hnd).
Qed.

Lemma flush_buffer_perm (pos : nat) (buffer : entries) :
  forall lhs,
    NoDup (map entry_id (lhs ++ buffer)) ->
    Permutation (flush_buffer pos buffer lhs) (lhs ++ buffer).
Proof.
  unfold flush_buffer.
  induction buffer as [|[k v] buffer IH]; intros lhs Hnd; simpl.
  - now rewrite app_nil_r.
  - assert (Permutation ((k, v) :: lhs ++ buffer) (lhs ++ (k, v) :: buffer))
      as Hmid by apply Permutation_middle.
    rewrite <- (Permutation_map entry_id Hmid) in Hnd.
    assert (Permutation (dict_insert key_eqb pos k v lhs) ((k, v) :: lhs)) as Hins.
    { apply dict_insert_perm. simpl in Hnd |- *. rewrite map_app in Hnd.
      apply NoDup_cons_In in Hnd as [Hn Hnd]. apply NoDup_cons_In. split.
      - intros Hin. apply Hn. apply in_or_app. now left.
      - now apply NoDup_app_In in Hnd as (Hl & _ & _). }
    rewrite IH.
    + rewrite Hins. simpl. exact Hmid.
    + assert (Permutation (dict_insert key_eqb pos k v lhs ++ buffer)
                          ((k, v) :: lhs ++ buffer)) as Hp
          by (rewrite Hins; reflexivity).
      now rewrite (Permutation_map entry_id Hp).
Qed.

Lemma dict_set_fst (k : keynode) (v : Node) (d : entries) :
  dict_has key_eqb k d = true ->
  map fst (dict_set key_eqb k v d) = map fst d.
Proof.
  unfold dict_has. induction d as [|[k' v'] d IH]; simpl; [discriminate|].
  destruct (key_eqb k' k) eqn:Ek; simpl; [reflexivity|].
  intros Hd. f_equal. now apply IH.
Qed.

Lemma dict_insert_sublist (pos : nat) (k : keynode) (v : Node) (lhs : entries) :
  NoDup (map entry_id ((k, v) :: lhs)) ->
  sublist (map fst lhs) (map fst (dict_insert key_eqb pos k v lhs)).
Proof.
  intros Hnd. destruct (le_lt_dec pos (length lhs)) as [Hle|Hgt].
  - rewrite dict_insert_new by assumption.
    rewrite <- (firstn_skipn pos lhs) at 1. rewrite !map_app. simpl.
    apply sublist_app; [reflexivity|]. now apply sublist_cons.
  - unfold dict_insert.
    assert (Nat.leb (length lhs) pos = true) as -> by (apply Nat.leb_le; lia).
    rewrite dict_set_fresh.
    + rewrite map_app. now apply sublist_inserts_r.
    + apply dict_has_entry_id. simpl in Hnd.
      apply NoDup_cons_In in Hnd. exact (proj1 Hnd).
Qed.

Lemma flush_buffer_sublist (pos : nat) (buffer : entries) :
  forall lhs,
    NoDup (map entry_id (lhs ++ buffer)) ->
    sublist (map fst lhs) (map fst (flush_buffer pos buffer lhs)).
Proof.
  unfold flush_buffer.
  induction buffer as [|[k v] buffer IH]; intros lhs Hnd; simpl.
  - reflexivity.
  - assert (Permutation ((k, v) :: lhs ++ buffer) (lhs ++ (k, v) :: buffer))
      as Hmid by apply Permutation_middle.
    rewrite <- (Permutation_map entry_id Hmid) in Hnd.
    assert (NoDup (map entry_id ((k, v) :: lhs))) as Hkl.
    { simpl in Hnd |- *. rewrite map_app in Hnd.
      apply NoDup_cons_In in Hnd as [Hn Hnd]. apply NoDup_cons_In. split.
      - intros Hin. apply Hn. apply in_or_app. now left.
      - now apply NoDup_app_In in Hnd as (Hl & _ & _). }
    transitivity (map fst (dict_insert key_eqb pos k v lhs)).
    + now apply dict_insert_sublist.
    + apply IH.
      assert (Permutation (dict_insert key_eqb pos k v lhs ++ buffer)
                          ((k, v) :: lhs ++ buffer)) as Hp
          by (rewrite (dict_insert_perm pos k v lhs Hkl); reflexivity).
      now rewrite (Permutation_map entry_id Hp).
Qed.

Section DeepLoop.
Variables (md ml : Node -> Node -> option Node -> option parentref_t
                   -> string -> res outcome).
Variables (rn : Node) (path : string).

Lemma merge_dicts_loop_inv :
  forall (rhs lhs buffer : entries) (pos : nat) (out : entries),
    NoDup (map entry_id (lhs ++ buffer)) ->
    NoDup (map entry_id (buffer ++ rhs)) ->
    merge_dicts_loop md ml rn path rhs lhs buffer pos = Ok out ->
    Permutation (map entry_id out)
      (map entry_id lhs ++ map entry_id buffer
       ++ map entry_id (List.filter (is_new lhs) rhs))
    /\ (forall kv, In kv (lhs ++ buffer) ->
                   ~ In (entry_id kv) (map entry_id rhs) -> In kv out)
    /\ (forall kv, In kv rhs -> is_new lhs kv = true -> In kv out)
    /\ (forall key a v,
           In (key, Scalar a v) rhs -> dict_has key_eqb key lhs = true ->
           exists key', In (key', Scalar a v) out /\ key_eqb key' key = true)
    /\ sublist (map fst lhs) (map fst out).
Proof.
  induction rhs as [|[key val] rhs IH]; intros lhs buffer pos out Hlb Hbr Hrun.
  - cbn [merge_dicts_loop] in Hrun. injection Hrun as <-.
    rewrite write_remaining_fresh by now apply NoDup_all_fresh.
    repeat split.
    + simpl. now rewrite app_nil_r, map_app.
    + intros kv Hin _. exact Hin.
    + intros kv [].
    + intros key a v [].
    + rewrite map_app. now apply sublist_inserts_r.
  - cbn [merge_dicts_loop] in Hrun.
    assert (~ In (entry_id (key, val)) (map entry_id buffer)
            /\ ~ In (entry_id (key, val)) (map entry_id rhs)
            /\ NoDup (map entry_id rhs)
            /\ (forall x, In x (map entry_id buffer) -> ~ In x (map entry_id rhs)))
      as (Hkb & Hkr & Hr & Hbr').
    { rewrite map_app in Hbr. apply NoDup_app_In in Hbr as (Hb & Hd & Hr).
      simpl in Hr. apply NoDup_cons_In in Hr as [Hkr Hr].
      repeat split; try assumption.
      - intros Hin. apply (Hd _ Hin). now left.
      - intros x Hx Hin. apply (Hd _ Hx). now right. }
    destruct (dict_has key_eqb key lhs) eqn:Hhas.
    + set (lhs1 := flush_buffer pos buffer lhs) in *.
      assert (Permutation lhs1 (lhs ++ buffer)) as P1
          by now apply flush_buffer_perm.
      match type of Hrun with
      | bind ?c _ = _ => destruct c as [nv|f] eqn:Ec; [|discriminate]
      end.
      cbn [bind] in Hrun.
      assert (Hin1 : forall x, In x (map entry_id lhs1)
                               <-> In x (map entry_id lhs)
                                   \/ In x (map entry_id buffer)).
      { intros x. rewrite (Permutation_map entry_id P1), map_app.
        apply in_app_iff. }
      assert (Hhas1 : dict_has key_eqb key lhs1 = true).
      { apply dict_has_In_id. apply Hin1. left. now apply dict_has_In_id. }
      set (lhs2 := dict_set key_eqb key nv lhs1) in *.
      assert (Hids2 : map entry_id lhs2 = map entry_id lhs1)
        by now apply dict_set_ids.
      assert (Hsame : forall kv, In kv rhs -> is_new lhs2 kv = is_new lhs kv).
      { intros kv Hin. unfold is_new. f_equal. apply dict_has_ext.
        rewrite Hids2, Hin1. split; [|tauto]. intros [H|H]; [exact H|].
        exfalso. apply (Hbr' _ H). apply (in_map entry_id _ _ Hin). }
      assert (Hold : is_new lhs (key, val) = false)
        by (unfold is_new; cbn [fst]; now rewrite Hhas).
      destruct (IH lhs2 [] (S pos) out) as (I1 & I2 & I3 & I4 & I5).
      { rewrite app_nil_r, Hids2, (Permutation_map entry_id P1). exact Hlb. }
      { exact Hr. }
      { exact Hrun. }
      repeat split.
      * rewrite I1, Hids2, (Permutation_map entry_id P1), map_app.
        cbn [List.filter]. rewrite Hold.
        rewrite (filter_ext_in _ _ _ Hsame). simpl.
        now rewrite <- app_assoc.
      * intros kv Hin Hnot. apply I2.
        -- rewrite app_nil_r. apply dict_set_In_other.
           ++ apply (Permutation_in _ (Permutation_sym P1)). exact Hin.
           ++ intros Heq. apply Hnot. rewrite Heq. now left.
        -- intros Hin'. apply Hnot. now right.
      * intros kv [Heq|Hin] Hnew.
        -- subst kv. congruence.
        -- apply I3; [exact Hin|]. now rewrite Hsame.
      * intros key0 a v [Heq|Hin] Hh.
        -- injection Heq as -> ->. cbn in Ec. injection Ec as <-.
           destruct (dict_set_In_new key0 (Scalar a v) lhs1 Hhas1)
             as (k' & Hin' & Hk').
           exists k'. split; [|exact Hk']. apply I2.
           ++ rewrite app_nil_r. exact Hin'.
           ++ intros Hin2. apply Hkr. apply key_eqb_id in Hk'.
              unfold entry_id in Hin2 |- *. cbn [fst] in Hin2 |- *.
              now rewrite <- Hk'.
        -- apply I4; [exact Hin|].
           apply dict_has_In_id. rewrite Hids2. apply Hin1. left.
           now apply dict_has_In_id.
      * transitivity (map fst lhs2); [|exact I5].
        unfold lhs2. rewrite dict_set_fst by exact Hhas1.
        now apply flush_buffer_sublist.
    + assert (Hn : is_new lhs (key, val) = true)
        by (unfold is_new; cbn [fst]; now rewrite Hhas).
      destruct (IH lhs (buffer ++ [(key, val)]) (S pos) out)
        as (I1 & I2 & I3 & I4 & I5).
      { assert (Permutation (lhs ++ buffer ++ [(key, val)])
                            ((key, val) :: lhs ++ buffer)) as Hp.
        { rewrite app_assoc. symmetry. apply Permutation_cons_append. }
        rewrite (Permutation_map entry_id Hp). simpl.
        apply NoDup_cons_In. split; [|exact Hlb].
        apply dict_has_entry_id in Hhas.
        rewrite map_app, in_app_iff. tauto. }
      { rewrite <- app_assoc. exact Hbr. }
      { exact Hrun. }
      repeat split.
      * rewrite I1. cbn [List.filter]. rewrite Hn.
        rewrite map_app. simpl. now rewrite <- app_assoc.
      * intros kv Hin Hnot. apply I2.
        -- rewrite app_assoc. apply in_or_app. now left.
        -- intros H. apply Hnot. now right.
      * intros kv [Heq|Hin] Hnew.
        -- subst kv. apply I2.
           ++ rewrite app_assoc. apply in_or_app. right. now left.
           ++ exact Hkr.
        -- now apply I3.
      * intros key0 a v [Heq|Hin] Hh.
        -- injection Heq as -> ->. congruence.
        -- now apply I4.
      * exact I5.
Qed.
End DeepLoop.

Lemma dict_get_entry (k : keynode) (v : Node) (d : entries) :
  dict_get key_eqb k d = Some v ->
  exists k', In (k', v) d /\ key_eqb k' k = true.
Proof.
  induction d as [|[k0 v0] d IH]; simpl; [discriminate|].
  destruct (key_eqb k0 k) eqn:E; intros H.
  - injection H as ->. exists k0. split; [now left | exact E].
  - destruct (IH H) as (k' & Hin & Hk). exists k'. split; [now right | exact Hk].
Qed.

Lemma NoDup_map_filter {A B : Type} (f : A -> B) (p : A -> bool) (l : list A) :
  NoDup (map f l) -> NoDup (map f (List.filter p l)).
Proof.
  induction l as [|x l IH]; simpl; [trivial|].
  intros Hnd. apply NoDup_cons_In in Hnd as [Hn Hnd].
  destruct (p x); simpl; [|now apply IH].
  apply NoDup_cons_In. split; [|now apply IH].
  intros Hin. apply Hn. apply in_map_iff in Hin as (y & Hy & Hin).
  apply List.filter_In in Hin as [Hin _]. rewrite <- Hy. now apply in_map.
Qed.

Lemma merge_dicts_deep_run (config : MergerConfig) (la ra : attrs)
      (lm rm : entries) (parent : option Node)
      (parentref : option parentref_t) (path : string) :
  goes_deep config (Mapping ra rm) parent parentref path ->
  _merge_dicts config (Mapping la lm) (Mapping ra rm) parent parentref path
  = let! lm' := merge_dicts_loop (_merge_dicts config) (_merge_lists config)
                                 (Mapping ra rm) path rm lm [] 0 in
    Ok (Out (Mapping la lm') (Mapping la lm')).
Proof.
  intros Hdeep. rewrite _merge_dicts_unfold. unfold merge_dicts_open.
  destruct Hdeep as [->|Hmode].
  - destruct rm; reflexivity.
  - rewrite Hmode. destruct (Nat.ltb 0 (String.length path)); destruct rm; reflexivity.
Qed.

(** What a deep merge of two mappings with proper keys gives, in one
    place: the facts of the loop, from an empty buffer. *)
Lemma merge_dicts_deep_facts (config : MergerConfig) (la ra : attrs)
      (lm rm : entries) (parent : option Node)
      (parentref : option parentref_t) (path : string) (r : outcome) :
  goes_deep config (Mapping ra rm) parent parentref path ->
  distinct_keys lm -> distinct_keys rm ->
  _merge_dicts config (Mapping la lm) (Mapping ra rm) parent parentref path
  = Ok r ->
  exists lm',
    r = Out (Mapping la lm') (Mapping la lm')
    /\ distinct_keys lm'
    /\ Permutation (map entry_id lm')
         (map entry_id lm ++ map entry_id (List.filter (is_new lm) rm))
    /\ (forall kv, In kv lm -> ~ In (entry_id kv) (map entry_id rm) ->
                   In kv lm')
    /\ (forall kv, In kv rm -> is_new lm kv = true -> In kv lm')
    /\ (forall key a v,
           In (key, Scalar a v) rm -> dict_has key_eqb key lm = true ->
           exists key', In (key', Scalar a v) lm' /\ key_eqb key' key = true)
    /\ sublist (map fst lm) (map fst lm').
Proof.
  intros Hdeep Hl Hr Hrun. rewrite merge_dicts_deep_run in Hrun by exact Hdeep.
  destruct (merge_dicts_loop _ _ _ _ _ _ _ _) as [lm'|f] eqn:Eloop;
    [|discriminate].
  cbn [bind] in Hrun. injection Hrun as <-.
  apply merge_dicts_loop_inv in Eloop as (I1 & I2 & I3 & I4 & I5);
    [|now rewrite app_nil_r|exact Hr].
  simpl in I1. exists lm'. repeat split; try assumption.
  - unfold distinct_keys. rewrite I1. apply NoDup_app_In. repeat split.
    + exact Hl.
    + intros x Hx Hin. apply in_map_iff in Hin as (kv & <- & Hin).
      apply List.filter_In in Hin as [_ Hnew]. unfold is_new in Hnew.
      apply negb_true_iff in Hnew. apply dict_has_entry_id in Hnew.
      exact (Hnew Hx).
    + now apply NoDup_map_filter.
  - intros kv Hin Hnot. apply I2; [|exact Hnot]. now rewrite app_nil_r.
Qed.

Lemma merge_dicts_deep_lookup (lm rm lm' : entries) :
  distinct_keys lm' ->
  (forall kv, In kv rm -> is_new lm kv = true -> In kv lm') ->
  (forall key a v,
      In (key, Scalar a v) rm -> dict_has key_eqb key lm = true ->
      exists key', In (key', Scalar a v) lm' /\ key_eqb key' key = true) ->
  forall key val,
    In (key, val) rm ->
    is_new lm (key, val) = true \/ is_scalar val = true ->
    dict_get key_eqb key lm' = Some val.
Proof.
  intros Hnd Hnew Hscalar key val Hin Hcase.
  destruct (is_new lm (key, val)) eqn:E.
  - apply (dict_get_of_In key key val lm' Hnd).
    + now apply Hnew.
    + apply key_eqb_id. reflexivity.
  - destruct Hcase as [Hc|Hc]; [discriminate|].
    destruct val as [a v| |]; try discriminate.
    unfold is_new in E. cbn [fst] in E. apply negb_false_iff in E.
    destruct (Hscalar key a v Hin E) as (k' & Hin' & Hk).
    exact (dict_get_of_In key k' _ lm' Hnd Hin' Hk).
Qed.

Ltac distinct_keys_by_computation :=
  unfold distinct_keys; simpl;
  repeat (apply NoDup_cons_In; split; [simpl; intuition discriminate|]);
  constructor.

(** X11.  A deep merge of two mappings gives a mapping again, under the
    target's own attributes, whose keys are those of the target and
    those of the incoming mapping, each once: a key is in the result
    exactly when it is in one of the two, and the result has one entry
    more than the target for each incoming key that is new to it. *)
Theorem merge_dicts_deep_keys (config : MergerConfig) (la ra : attrs)
      (lm rm : entries) (parent : option Node)
      (parentref : option parentref_t) (path : string) (r : outcome) :
  goes_deep config (Mapping ra rm) parent parentref path ->
  distinct_keys lm -> distinct_keys rm ->
  _merge_dicts config (Mapping la lm) (Mapping ra rm) parent parentref path
  = Ok r ->
  exists lm',
    r = Out (Mapping la lm') (Mapping la lm')
    /\ distinct_keys lm'
    /\ (forall key,
           dict_has key_eqb key lm'
           = dict_has key_eqb key lm || dict_has key_eqb key rm)
    /\ length lm' = length lm + length (List.filter (is_new lm) rm).
Proof.
  intros Hdeep Hl Hr Hrun.
  destruct (merge_dicts_deep_facts _ _ _ _ _ _ _ _ _ Hdeep Hl Hr Hrun)
    as (lm' & -> & Hnd & Hperm & _).
  exists lm'. repeat split; [exact Hnd| |].
  - intros key. apply eq_true_iff_eq.
    rewrite orb_true_iff, !dict_has_In_id, Hperm, in_app_iff.
    split; intros [H|H]; try (now left).
    + right. apply in_map_iff in H as (kv & Hid & Hin).
      apply List.filter_In in Hin as [Hin _]. rewrite <- Hid.
      now apply in_map.
    + destruct (dict_has key_eqb key lm) eqn:E.
      * left. now apply dict_has_In_id.
      * right. apply in_map_iff in H as (kv & Hid & Hin).
        apply in_map_iff. exists kv. split; [exact Hid|].
        apply List.filter_In. split; [exact Hin|].
        unfold is_new. apply negb_true_iff. apply dict_has_entry_id.
        apply dict_has_entry_id in E. unfold entry_id in Hid.
        now rewrite Hid.
  - rewrite <- (length_map entry_id lm'), (Permutation_length Hperm).
    now rewrite length_app, !length_map.
Qed.

(** The statement at work, on the mappings [{a: 1, b: 2}] and
    [{b: 3, c: 4}]. *)
Lemma merge_dicts_deep_keys_witness :
  let lm := [(Doc.key "a", Doc.int 1); (Doc.key "b", Doc.int 2)] in
  let rm := [(Doc.key "b", Doc.int 3); (Doc.key "c", Doc.int 4)] in
  let out := Doc.map [(Doc.key "a", Doc.int 1); (Doc.key "b", Doc.int 3);
                      (Doc.key "c", Doc.int 4)] in
  distinct_keys lm /\ distinct_keys rm
  /\ exists lm',
      Out out out = Out (Mapping bare lm') (Mapping bare lm')
      /\ distinct_keys lm'
      /\ (forall key,
             dict_has key_eqb key lm'
             = dict_has key_eqb key lm || dict_has key_eqb key rm)
      /\ length lm' = length lm + length (List.filter (is_new lm) rm).
Proof.
  intros lm rm out.
  assert (distinct_keys lm) as Hl by distinct_keys_by_computation.
  assert (distinct_keys rm) as Hr by distinct_keys_by_computation.
  split; [exact Hl|]. split; [exact Hr|].
  apply (merge_dicts_deep_keys (default_config AnchorConflictResolutions.ABORT)
           bare bare lm rm None None "" (Out out out));
    [left; reflexivity | exact Hl | exact Hr | reflexivity].
Defined.

Lemma merge_dicts_deep_untouched (lm rm lm' : entries) :
  distinct_keys lm' ->
  Permutation (map entry_id lm')
    (map entry_id lm ++ map entry_id (List.filter (is_new lm) rm)) ->
  (forall kv, In kv lm -> ~ In (entry_id kv) (map entry_id rm) -> In kv lm') ->
  forall key,
    dict_has key_eqb key rm = false ->
    dict_get key_eqb key lm' = dict_get key_eqb key lm.
Proof.
  intros Hnd Hperm Hkeep key Hout.
  apply dict_has_entry_id in Hout.
  destruct (dict_get key_eqb key lm) as [v|] eqn:E.
  - apply dict_get_entry in E as (k' & Hin & Hk).
    apply (dict_get_of_In key k' v lm' Hnd); [|exact Hk].
    apply Hkeep; [exact Hin|].
    apply key_eqb_id in Hk. unfold entry_id. cbn [fst]. now rewrite Hk.
  - assert (dict_has key_eqb key lm' = false) as Hno.
    { apply dict_has_entry_id. rewrite Hperm, in_app_iff. intros [H|H].
      - assert (dict_has key_eqb key lm = true) as Hh by now apply dict_has_In_id.
        unfold dict_has in Hh. now rewrite E in Hh.
      - apply Hout. apply in_map_iff in H as (kv & Hid & Hin).
        apply List.filter_In in Hin as [Hin _]. rewrite <- Hid.
        now apply in_map. }
    unfold dict_has in Hno. now destruct (dict_get key_eqb key lm').
Qed.

(** X12.  A deep merge of two mappings that comes to no nested merge
    (every incoming value under a key the target has is a scalar)
    leaves alone what the incoming mapping does not name: under every
    key that is not a key of the incoming mapping, the result holds
    what the target held (and nothing where the target held nothing).
    A nested merge writes into the object the target holds under the
    key, which the target may hold under other keys as well; documents
    as trees do not show that, hence the condition. *)
Theorem merge_dicts_deep_keeps_target (config : MergerConfig) (la ra : attrs)
      (lm rm : entries) (parent : option Node)
      (parentref : option parentref_t) (path : string) (r : outcome) :
  goes_deep config (Mapping ra rm) parent parentref path ->
  distinct_keys lm -> distinct_keys rm ->
  (forall kv, In kv rm -> is_new lm kv = true \/ is_scalar (snd kv) = true) ->
  _merge_dicts config (Mapping la lm) (Mapping ra rm) parent parentref path
  = Ok r ->
  exists lm',
    r = Out (Mapping la lm') (Mapping la lm')
    /\ forall key,
        dict_has key_eqb key rm = false ->
        dict_get key_eqb key lm' = dict_get key_eqb key lm.
Proof.
  intros Hdeep Hl Hr _ Hrun.
  destruct (merge_dicts_deep_facts _ _ _ _ _ _ _ _ _ Hdeep Hl Hr Hrun)
    as (lm' & -> & Hnd & Hperm & Hkeep & _).
  exists lm'. split; [reflexivity|].
  exact (merge_dicts_deep_untouched lm rm lm' Hnd Hperm Hkeep).
Qed.

(** The statement at work: [a] keeps its value. *)
Lemma merge_dicts_deep_keeps_target_witness :
  let lm := [(Doc.key "a", Doc.int 1); (Doc.key "b", Doc.int 2)] in
  let rm := [(Doc.key "b", Doc.int 3); (Doc.key "c", Doc.int 4)] in
  let out := Doc.map [(Doc.key "a", Doc.int 1); (Doc.key "b", Doc.int 3);
                      (Doc.key "c", Doc.int 4)] in
  distinct_keys lm /\ distinct_keys rm
  /\ exists lm',
      Out out out = Out (Mapping bare lm') (Mapping bare lm')
      /\ forall key,
          dict_has key_eqb key rm = false ->
          dict_get key_eqb key lm' = dict_get key_eqb key lm.
Proof.
  intros lm rm out.
  assert (distinct_keys lm) as Hl by distinct_keys_by_computation.
  assert (distinct_keys rm) as Hr by distinct_keys_by_computation.
  split; [exact Hl|]. split; [exact Hr|].
  apply (merge_dicts_deep_keeps_target (hash_config HashMergeOpts.DEEP)
           bare bare lm rm None None "/top" (Out out out));
    [right; reflexivity | exact Hl | exact Hr | | reflexivity].
  intros kv [<-|[<-|[]]]; [right | left]; reflexivity.
Defined.

(** X13.  In a deep merge of two mappings that comes to no nested merge
    (every incoming value under a key the target has is a scalar) the
    incoming mapping wins: under the key of every incoming entry, a
    lookup in the result finds the incoming value. *)
Theorem merge_dicts_deep_incoming_wins (config : MergerConfig) (la ra : attrs)
      (lm rm : entries) (parent : option Node)
      (parentref : option parentref_t) (path : string) (r : outcome) :
  goes_deep config (Mapping ra rm) parent parentref path ->
  distinct_keys lm -> distinct_keys rm ->
  (forall kv, In kv rm -> is_new lm kv = true \/ is_scalar (snd kv) = true) ->
  _merge_dicts config (Mapping la lm) (Mapping ra rm) parent parentref path
  = Ok r ->
  exists lm',
    r = Out (Mapping la lm') (Mapping la lm')
    /\ forall key val,
        In (key, val) rm -> dict_get key_eqb key lm' = Some val.
Proof.
  intros Hdeep Hl Hr Hflat Hrun.
  destruct (merge_dicts_deep_facts _ _ _ _ _ _ _ _ _ Hdeep Hl Hr Hrun)
    as (lm' & -> & Hnd & _ & _ & Hnew & Hscalar & _).
  exists lm'. split; [reflexivity|]. intros key val Hin.
  exact (merge_dicts_deep_lookup lm rm lm' Hnd Hnew Hscalar key val Hin
           (Hflat (key, val) Hin)).
Qed.

(** The statement at work: [b] and [c] hold the incoming values. *)
Lemma merge_dicts_deep_incoming_wins_witness :
  let lm := [(Doc.key "a", Doc.int 1); (Doc.key "b", Doc.int 2)] in
  let rm := [(Doc.key "b", Doc.int 3); (Doc.key "c", Doc.seq [Doc.int 4])] in
  let out := Doc.map [(Doc.key "a", Doc.int 1); (Doc.key "b", Doc.int 3);
                      (Doc.key "c", Doc.seq [Doc.int 4])] in
  distinct_keys lm /\ distinct_keys rm
  /\ exists lm',
      Out out out = Out (Mapping bare lm') (Mapping bare lm')
      /\ forall key val,
          In (key, val) rm -> dict_get key_eqb key lm' = Some val.
Proof.
  intros lm rm out.
  assert (distinct_keys lm) as Hl by distinct_keys_by_computation.
  assert (distinct_keys rm) as Hr by distinct_keys_by_computation.
  split; [exact Hl|]. split; [exact Hr|].
  apply (merge_dicts_deep_incoming_wins
           (default_config AnchorConflictResolutions.ABORT)
           bare bare lm rm None None "" (Out out out));
    [left; reflexivity | exact Hl | exact Hr | | reflexivity].
  intros kv [<-|[<-|[]]]; [right | left]; reflexivity.
Defined.

(** X24.  A deep merge of two mappings does not reorder the target:
    the keys the target had, the key objects themselves, come in the
    result in the order they had, whatever is put between and behind
    them. *)
Theorem merge_dicts_deep_order (config : MergerConfig) (la ra : attrs)
      (lm rm : entries) (parent : option Node)
      (parentref : option parentref_t) (path : string) (r : outcome) :
  goes_deep config (Mapping ra rm) parent parentref path ->
  distinct_keys lm -> distinct_keys rm ->
  _merge_dicts config (Mapping la lm) (Mapping ra rm) parent parentref path
  = Ok r ->
  exists lm',
    r = Out (Mapping la lm') (Mapping la lm')
    /\ sublist (map fst lm) (map fst lm').
Proof.
  intros Hdeep Hl Hr Hrun.
  destruct (merge_dicts_deep_facts _ _ _ _ _ _ _ _ _ Hdeep Hl Hr Hrun)
    as (lm' & -> & _ & _ & _ & _ & _ & Horder).
  exists lm'. split; [reflexivity | exact Horder].
Qed.

(** The statement at work: [x] and [y] come between [a] and [b], which
    stay in their order. *)
Lemma merge_dicts_deep_order_witness :
  let lm := [(Doc.key "a", Doc.int 1); (Doc.key "b", Doc.int 2)] in
  let rm := [(Doc.key "x", Doc.int 7); (Doc.key "y", Doc.int 8);
             (Doc.key "a", Doc.int 9)] in
  let out := Doc.map [(Doc.key "a", Doc.int 9); (Doc.key "b", Doc.int 2);
                      (Doc.key "y", Doc.int 8); (Doc.key "x", Doc.int 7)] in
  distinct_keys lm /\ distinct_keys rm
  /\ exists lm',
      Out out out = Out (Mapping bare lm') (Mapping bare lm')
      /\ sublist (map fst lm) (map fst lm').
Proof.
  intros lm rm out.
  assert (distinct_keys lm) as Hl by distinct_keys_by_computation.
  assert (distinct_keys rm) as Hr by distinct_keys_by_computation.
  split; [exact Hl|]. split; [exact Hr|].
  apply (merge_dicts_deep_order (default_config AnchorConflictResolutions.ABORT)
           bare bare lm rm None None "" (Out out out));
    [left; reflexivity | exact Hl | exact Hr | reflexivity].
Defined.

Lemma merge_dicts_loop_flat md ml rn path :
  forall rhs lhs buffer pos,
    Forall (fun kv => is_scalar (snd kv) = true) rhs ->
    exists out, merge_dicts_loop md ml rn path rhs lhs buffer pos = Ok out.
Proof.
  induction rhs as [|[key val] rhs IH]; intros lhs buffer pos Hflat;
    cbn [merge_dicts_loop].
  - eexists. reflexivity.
  - inversion Hflat as [|? ? Hval Hrest]; subst.
    destruct val as [a v| |]; try discriminate.
    destruct (dict_has key_eqb key lhs); cbn [bind]; now apply IH.
Qed.

Lemma merge_dicts_loop_settled md ml rn path :
  forall rhs lhs pos,
    (forall kv, In kv rhs ->
                is_scalar (snd kv) = true
                /\ dict_get key_eqb (fst kv) lhs = Some (snd kv)) ->
    merge_dicts_loop md ml rn path rhs lhs [] pos = Ok lhs.
Proof.
  induction rhs as [|[key val] rhs IH]; intros lhs pos Hall;
    cbn [merge_dicts_loop].
  - reflexivity.
  - destruct (Hall (key, val) (or_introl eq_refl)) as [Hval Hget].
    cbn [fst snd] in Hval, Hget.
    destruct val as [a v| |]; try discriminate.
    unfold dict_has. rewrite Hget. cbn [bind flush_buffer fold_left].
    rewrite dict_set_same by exact Hget.
    apply IH. intros kv Hin. apply Hall. now right.
Qed.

(** X14.  A deep merge of two mappings cannot fail when the incoming
    mapping is flat, that is when all its values are scalars: whatever
    the target holds under the incoming keys, the merge returns a
    mapping under the target's attributes. *)
Theorem merge_dicts_flat_succeeds (config : MergerConfig) (la ra : attrs)
      (lm rm : entries) (parent : option Node)
      (parentref : option parentref_t) (path : string) :
  goes_deep config (Mapping ra rm) parent parentref path ->
  Forall (fun kv => is_scalar (snd kv) = true) rm ->
  exists lm',
    _merge_dicts config (Mapping la lm) (Mapping ra rm) parent parentref path
    = Ok (Out (Mapping la lm') (Mapping la lm')).
Proof.
  intros Hdeep Hflat. rewrite merge_dicts_deep_run by exact Hdeep.
  destruct (merge_dicts_loop_flat (_merge_dicts config) (_merge_lists config)
              (Mapping ra rm) path rm lm [] 0 Hflat) as [lm' ->].
  exists lm'. reflexivity.
Qed.

(** The statement at work: a scalar written over a sequence. *)
Lemma merge_dicts_flat_succeeds_witness :
  let lm := [(Doc.key "a", Doc.seq [Doc.int 1])] in
  let rm := [(Doc.key "a", Doc.int 3); (Doc.key "c", Doc.int 4)] in
  Forall (fun kv => is_scalar (snd kv) = true) rm
  /\ exists lm',
      _merge_dicts (hash_config HashMergeOpts.DEEP) (Mapping bare lm)
                   (Mapping bare rm) None None "/top"
      = Ok (Out (Mapping bare lm') (Mapping bare lm')).
Proof.
  intros lm rm.
  assert (Forall (fun kv => is_scalar (snd kv) = true) rm) as Hflat
      by (repeat constructor).
  split; [exact Hflat|].
  apply (merge_dicts_flat_succeeds (hash_config HashMergeOpts.DEEP)
           bare bare lm rm None None "/top");
    [right; reflexivity | exact Hflat].
Defined.

(** X15.  Merging the same flat mapping a second time changes nothing:
    after a deep merge of a mapping whose values are all scalars, the
    same merge run again on the target it left gives that very target
    back. *)
Theorem merge_dicts_flat_idempotent (config : MergerConfig) (la ra : attrs)
      (lm rm : entries) (parent : option Node)
      (parentref : option parentref_t) (path : string) (r : outcome) :
  goes_deep config (Mapping ra rm) parent parentref path ->
  distinct_keys lm -> distinct_keys rm ->
  Forall (fun kv => is_scalar (snd kv) = true) rm ->
  _merge_dicts config (Mapping la lm) (Mapping ra rm) parent parentref path
  = Ok r ->
  _merge_dicts config (lhs_after r) (Mapping ra rm) parent parentref path
  = Ok r.
Proof.
  intros Hdeep Hl Hr Hflat Hrun.
  destruct (merge_dicts_deep_facts _ _ _ _ _ _ _ _ _ Hdeep Hl Hr Hrun)
    as (lm' & -> & Hnd & _ & _ & Hnew & Hscalar & _).
  cbn [lhs_after]. rewrite merge_dicts_deep_run by exact Hdeep.
  rewrite merge_dicts_loop_settled; [reflexivity|].
  intros [key val] Hin. cbn [fst snd].
  rewrite Forall_forall in Hflat.
  assert (is_scalar val = true) as Hval.
  { apply (Hflat (key, val)). now apply list_elem_of_In. }
  split; [exact Hval|].
  apply (merge_dicts_deep_lookup lm rm lm' Hnd Hnew Hscalar key val Hin).
  now right.
Qed.

(** The statement at work, on [{a: 1, b: 2}] and [{b: 3, c: 4}]. *)
Lemma merge_dicts_flat_idempotent_witness :
  let lm := [(Doc.key "a", Doc.int 1); (Doc.key "b", Doc.int 2)] in
  let rm := [(Doc.key "b", Doc.int 3); (Doc.key "c", Doc.int 4)] in
  let out := Doc.map [(Doc.key "a", Doc.int 1); (Doc.key "b", Doc.int 3);
                      (Doc.key "c", Doc.int 4)] in
  distinct_keys lm /\ distinct_keys rm
  /\ _merge_dicts (default_config AnchorConflictResolutions.ABORT)
                  out (Mapping bare rm) None None ""
     = Ok (Out out out).
Proof.
  intros lm rm out.
  assert (distinct_keys lm) as Hl by distinct_keys_by_computation.
  assert (distinct_keys rm) as Hr by distinct_keys_by_computation.
  split; [exact Hl|]. split; [exact Hr|].
  apply (merge_dicts_flat_idempotent
           (default_config AnchorConflictResolutions.ABORT)
           bare bare lm rm None None "" (Out out out));
    [left; reflexivity | exact Hl | exact Hr | repeat constructor | reflexivity].
Defined.

(** ** What the alias overwrite leaves alone, and where it fails *)

Lemma anchor_unused_substitute (anchor_val : akey) (repl_node : Node)
      (data : Node) :
  anchor_unused anchor_val data = true ->
  keys_clear anchor_val data = true
  /\ substitute anchor_val repl_node data = data.
Proof.
  induction data as [a v|a l IH|a m IH] using Node_nested_ind; intros Hun.
  - split; reflexivity.
  - simpl in *.
    assert (forallb (fun ele => anchor_is (node_attrs ele) anchor_val
                                || keys_clear anchor_val ele) l = true
            /\ map (fun ele =>
                      if anchor_is (node_attrs ele) anchor_val then repl_node
                      else substitute anchor_val repl_node ele) l = l)
      as [-> ->]; [|split; reflexivity].
    induction IH as [|x l Hx _ IHl]; simpl; [split; reflexivity|].
    simpl in Hun. apply andb_prop in Hun as [Hx' Hrest].
    apply andb_prop in Hx' as [Ha Hu]. apply negb_true_iff in Ha.
    destruct (IHl Hrest) as [-> ->]. destruct (Hx Hu) as [-> ->].
    rewrite Ha. split; reflexivity.
  - simpl in *.
    assert (forallb
              (fun kv =>
                 negb (anchor_is (key_attrs (fst kv)) anchor_val)
                 && (anchor_is (node_attrs (snd kv)) anchor_val
                     || keys_clear anchor_val (snd kv))) m = true
            /\ map (fun kv =>
                      (fst kv,
                       if anchor_is (node_attrs (snd kv)) anchor_val
                       then repl_node
                       else substitute anchor_val repl_node (snd kv))) m = m)
      as [-> ->]; [|split; reflexivity].
    induction IH as [|[k x] m Hx _ IHm]; simpl; [split; reflexivity|].
    simpl in Hun. apply andb_prop in Hun as [Hx' Hrest].
    apply andb_prop in Hx' as [Hka Hu]. apply andb_prop in Hka as [Hk Ha].
    apply negb_true_iff in Ha.
    destruct (IHm Hrest) as [-> ->]. simpl in Hx. destruct (Hx Hu) as [-> ->].
    rewrite Hk, Ha. split; reflexivity.
Qed.

(** X16.  The alias overwrite leaves a document alone that does not use
    the anchor: when no key, no value and no sequence element of [data]
    carries the anchor, [recursive_anchor_replace] returns [data] as it
    was, whatever the replacement node. *)
Theorem recursive_anchor_replace_unused (anchor_val : akey)
        (repl_node : Node) (data : Node) :
  anchor_unused anchor_val data = true ->
  recursive_anchor_replace data anchor_val repl_node = Ok data.
Proof.
  intros Hun.
  destruct (anchor_unused_substitute anchor_val repl_node data Hun)
    as [Hclear Hsame].
  rewrite recursive_anchor_replace_substitute by exact Hclear.
  now rewrite Hsame.
Qed.

(** The statement at work: the document uses [A] and [K], not [B]. *)
Lemma recursive_anchor_replace_unused_witness :
  anchor_unused (Some "B") commented_doc = true
  /\ recursive_anchor_replace commented_doc (Some "B") (Doc.int 7)
     = Ok commented_doc.
Proof.
  split; [reflexivity|].
  apply (recursive_anchor_replace_unused (Some "B") (Doc.int 7) commented_doc).
  reflexivity.
Defined.

Lemma fold_left_replace_key_err {V : Type} (repl_node : Node) (f : failure)
      (hits : list (nat * keynode)) :
  fold_left
    (fun acc hit => let! data := acc in @replace_key V repl_node data hit)
    hits (Err f)
  = Err f.
Proof. induction hits as [|h hits IH]; simpl; [reflexivity | exact IH]. Qed.

Lemma key_eqb_refl (k : keynode) : key_eqb k k = true.
Proof. apply key_eqb_id. reflexivity. Qed.

Lemma dict_get_own_key {V : Type} (k : keynode) (d : list (keynode * V)) :
  In k (map fst d) -> exists v, dict_get key_eqb k d = Some v.
Proof.
  induction d as [|[k' v'] d IH]; simpl; [intros []|].
  intros Hin. destruct (key_eqb k' k) eqn:E; [now exists v'|].
  destruct Hin as [->|Hin]; [|now apply IH].
  rewrite key_eqb_refl in E. discriminate.
Qed.

Lemma filter_enumerate_hit {A : Type} (p : A -> bool) (l : list A) :
  existsb p l = true ->
  forall idx,
    exists i x rest,
      List.filter (fun hit => p (snd hit)) (enumerate_from idx l)
      = (i, x) :: rest
      /\ In x l.
Proof.
  induction l as [|x l IH]; simpl; [discriminate|].
  intros Hex idx. destruct (p x) eqn:E.
  - exists idx, x. eexists. split; [reflexivity | now left].
  - simpl in Hex. destruct (IH Hex (S idx)) as (i & y & rest & Heq & Hin).
    exists i, y, rest. split; [exact Heq | now right].
Qed.

(** X17.  A key that carries the anchor can only be swapped for a
    scalar: when a key of the mapping carries the anchor and the
    replacement node is a mapping or a sequence, which cannot be a key,
    [recursive_anchor_replace] raises TypeError. *)
Theorem recursive_anchor_replace_unhashable (anchor_val : akey)
        (repl_node : Node) (a : attrs) (m : entries) :
  is_scalar repl_node = false ->
  existsb (fun kv => anchor_is (key_attrs (fst kv)) anchor_val) m = true ->
  recursive_anchor_replace (Mapping a m) anchor_val repl_node
  = Err (Raised TypeError).
Proof.
  intros Hrepl Hkey. cbn [recursive_anchor_replace].
  set (pending := map _ m).
  assert (map fst pending = map fst m) as Hkeys.
  { unfold pending. rewrite map_map. reflexivity. }
  assert (replace_keys anchor_val repl_node pending = Err (Raised TypeError))
    as ->; [|reflexivity].
  unfold replace_keys. rewrite Hkeys.
  destruct (filter_enumerate_hit
              (fun k => anchor_is (key_attrs k) anchor_val) (map fst m))
    with (idx := 0) as (i & k & rest & -> & Hin).
  { rewrite existsb_exists in Hkey |- *. destruct Hkey as (kv & Hkv & Hk).
    exists (fst kv). split; [now apply in_map | exact Hk]. }
  cbn [fold_left bind]. unfold replace_key at 2. cbn [fst snd].
  rewrite <- Hkeys in Hin. destruct (dict_get_own_key k pending Hin) as [v ->].
  destruct repl_node; try discriminate; cbn [key_of_node];
    apply fold_left_replace_key_err.
Qed.

(** The statement at work: a mapping as the replacement for key [&K k]. *)
Lemma recursive_anchor_replace_unhashable_witness :
  recursive_anchor_replace commented_doc (Some "K") (Doc.map [])
  = Err (Raised TypeError).
Proof.
  apply (recursive_anchor_replace_unhashable (Some "K") (Doc.map [])).
  - reflexivity.
  - reflexivity.
Defined.

(** ** The DEEP merge of arrays of hashes: its records and its failure *)

Lemma aoh_loop_missing_key (config : MergerConfig) merge_dicts
      (rhs_node : Node) (path : string) (ele : Node) (post : list Node)
      (f0 : failure) :
  forall pre idx ll,
    record_get ele
      (aoh_merge_key config
         (mkNodeCoords ele (Some rhs_node) (Some (RefIdx (idx + length pre))))
         ele)
    = Err f0 ->
    exists f,
      aoh_loop config merge_dicts AoHMergeOpts.DEEP rhs_node path idx
               (pre ++ ele :: post) ll
      = Err f.
Proof.
  induction pre as [|x pre IH]; intros idx ll Hget; cbn [app aoh_loop].
  - cbn [length] in Hget. rewrite Nat.add_0_r in Hget.
    unfold aoh_step. rewrite Hget. exists f0. reflexivity.
  - destruct (aoh_step config merge_dicts AoHMergeOpts.DEEP rhs_node path idx x ll)
      as [ll'|f] eqn:E; cbn [bind].
    + apply IH. cbn [length] in Hget.
      now replace (S idx + length pre) with (idx + S (length pre)) by lia.
    + exists f. reflexivity.
Qed.

(** X18.  The DEEP merge of arrays of hashes needs the identity key in
    every incoming record: when some incoming record is a mapping
    without the key the policy names for it, the merge fails, whatever
    the target list and the other records are; the record is not
    appended. *)
Theorem merge_arrays_of_hashes_deep_missing_key (config : MergerConfig)
        (la ra ea : attrs) (ll pre post : list Node) (em : entries)
        (node_coord : NodeCoords) (path : string) :
  let rhs := Sequence ra (pre ++ Mapping ea em :: post) in
  let id_key :=
    aoh_merge_key config
      (mkNodeCoords (Mapping ea em) (Some rhs) (Some (RefIdx (length pre))))
      (Mapping ea em) in
  aoh_merge_mode config node_coord = AoHMergeOpts.DEEP ->
  dict_has key_eqb (Key plain id_key) em = false ->
  exists f,
    _merge_arrays_of_hashes config (Sequence la ll) rhs node_coord path = Err f.
Proof.
  intros rhs id_key Hmode Hkey.
  unfold _merge_arrays_of_hashes, merge_arrays_of_hashes_open. rewrite Hmode.
  destruct (aoh_loop_missing_key config (_merge_dicts config) rhs path
              (Mapping ea em) post (Raised KeyError) pre 0 ll) as [f Hf].
  { cbn [Nat.add record_get]. fold rhs. fold id_key.
    unfold dict_has in Hkey.
    now destruct (dict_get key_eqb (Key plain id_key) em). }
  exists f. subst rhs. cbn beta iota zeta.
  destruct pre as [|x pre]; cbn [app] in *; now rewrite Hf.
Qed.

(** The statement at work: the second incoming record has no [id]. *)
Lemma merge_arrays_of_hashes_deep_missing_key_witness :
  let config := default_config AnchorConflictResolutions.ABORT in
  let first := Doc.map [(Doc.key "id", Doc.int 1)] in
  let rhs := Doc.seq [first; Doc.map [(Doc.key "v", Doc.int 2)]] in
  aoh_merge_mode config (root_coords rhs) = AoHMergeOpts.DEEP
  /\ exists f,
      _merge_arrays_of_hashes config (Doc.seq []) rhs (root_coords rhs) ""
      = Err f.
Proof.
  intros config first rhs. split; [reflexivity|].
  apply (merge_arrays_of_hashes_deep_missing_key config bare bare bare
           [] [first] [] [(Doc.key "v", Doc.int 2)] (root_coords rhs) "");
    reflexivity.
Defined.

Lemma aoh_deep_record_length config rhs_node path idx ele lhs lhs' :
  aoh_deep_record config rhs_node path idx ele lhs = Ok lhs' ->
  length lhs <= length lhs' <= S (length lhs).
Proof.
  unfold aoh_deep_record.
  destruct (record_get ele _) as [wanted|f]; cbn [bind]; [|discriminate].
  destruct (list_find _ lhs) as [[i record]|].
  - destruct (_merge_dicts config record ele _ _ _) as [r|f]; cbn [bind];
      [|discriminate].
    intros [= <-]. rewrite length_insert. lia.
  - intros [= <-]. rewrite length_app. simpl. lia.
Qed.

Lemma aoh_deep_records_bounds config rhs_node path rl :
  forall idx ll ll',
    Forall (fun record => is_dict record = true) ll ->
    aoh_deep_records config rhs_node path idx rl ll = Ok ll' ->
    Forall (fun record => is_dict record = true) ll'
    /\ length ll <= length ll' <= length ll + length rl.
Proof.
  induction rl as [|ele rl IH]; intros idx ll ll' Hall;
    cbn [aoh_deep_records].
  - intros [= <-]. split; [exact Hall | simpl; lia].
  - destruct (aoh_deep_record config rhs_node path idx ele ll) as [t|f] eqn:E;
      cbn [bind]; [|discriminate].
    intros Hrest.
    pose proof (aoh_deep_record_length _ _ _ _ _ _ _ E) as Hlen.
    pose proof (aoh_deep_record_keeps_mappings _ _ _ _ _ _ _ Hall E) as Hall'.
    destruct (IH _ _ _ Hall' Hrest) as [Hd Hb].
    split; [exact Hd | simpl; lia].
Qed.

(** X19.  The DEEP merge of arrays of hashes drops no record and adds at
    most one for each incoming record: on a target list of mappings, a
    merge that returns leaves a list of mappings under the target's
    attributes, at least as long as the target list and at most as long
    as the two lists together. *)
Theorem merge_arrays_of_hashes_deep_bounds (config : MergerConfig)
        (la ra : attrs) (ll rl : list Node) (node_coord : NodeCoords)
        (path : string) (r : outcome) :
  aoh_merge_mode config node_coord = AoHMergeOpts.DEEP ->
  Forall (fun record => is_dict record = true) ll ->
  _merge_arrays_of_hashes config (Sequence la ll) (Sequence ra rl)
                          node_coord path
  = Ok r ->
  exists ll',
    r = Out (Sequence la ll') (Sequence la ll')
    /\ Forall (fun record => is_dict record = true) ll'
    /\ length ll <= length ll' <= length ll + length rl.
Proof.
  intros Hmode Hall.
  unfold _merge_arrays_of_hashes, merge_arrays_of_hashes_open. rewrite Hmode.
  destruct rl as [|ele rl'].
  - intros [= <-]. exists ll. split; [reflexivity|].
    split; [exact Hall | simpl; lia].
  - rewrite aoh_loop_deep by exact Hall.
    destruct (aoh_deep_records _ _ _ _ _ _) as [ll'|f] eqn:E; cbn [bind];
      [|discriminate].
    intros [= <-]. exists ll'. split; [reflexivity|].
    exact (aoh_deep_records_bounds _ _ _ _ _ _ _ Hall E).
Qed.

(** The statement at work: one record merged, one appended. *)
Lemma merge_arrays_of_hashes_deep_bounds_witness :
  let config := default_config AnchorConflictResolutions.ABORT in
  let ll := [Doc.map [(Doc.key "id", Doc.int 1); (Doc.key "v", Doc.str "x")]] in
  let rl := [Doc.map [(Doc.key "id", Doc.int 1); (Doc.key "v", Doc.str "y")];
             Doc.map [(Doc.key "id", Doc.int 2); (Doc.key "v", Doc.str "z")]] in
  Forall (fun record => is_dict record = true) ll
  /\ exists ll',
      Out (Doc.seq rl) (Doc.seq rl) = Out (Sequence bare ll') (Sequence bare ll')
      /\ Forall (fun record => is_dict record = true) ll'
      /\ length ll <= length ll' <= length ll + length rl.
Proof.
  intros config ll rl.
  assert (Forall (fun record => is_dict record = true) ll) as Hall
      by (repeat constructor).
  split; [exact Hall|].
  apply (merge_arrays_of_hashes_deep_bounds config bare bare ll rl
           (root_coords (Doc.seq rl)) "" (Out (Doc.seq rl) (Doc.seq rl)));
    [reflexivity | exact Hall | reflexivity].
Defined.

(** ** A whole merge of flat mappings *)

Lemma scan_for_anchors_strip_none (dom : Node) :
  scan_for_anchors dom [] = [] ->
  scan_for_anchors (delete_all_comments dom) [] = [].
Proof.
  intros Hnone.
  destruct (scan_for_anchors (delete_all_comments dom) []) as [|[k v] l] eqn:E;
    [reflexivity|].
  pose proof (scan_for_anchors_strip dom k) as Hget.
  rewrite E, Hnone in Hget. simpl in Hget.
  rewrite akey_eqb_refl in Hget. discriminate.
Qed.

Lemma dict_get_key_value {V : Type} (k1 k2 : keynode) (d : list (keynode * V)) :
  key_value k1 = key_value k2 ->
  dict_get key_eqb k1 d = dict_get key_eqb k2 d.
Proof.
  intros Hk. induction d as [|[k v] d IH]; simpl; [reflexivity|].
  unfold key_eqb at 1 3. rewrite Hk, IH. reflexivity.
Qed.

Section WholeMerge.
Context `{Externals}.

(** X20.  A whole merge of a flat mapping without anchors into a
    mapping: [merge_with] returns, nothing fails; the accumulated
    document is a mapping under its former attributes with each key
    once; every incoming key holds the incoming value, comments
    stripped; every other key holds what it held; the policy is the one
    prepared with the stripped incoming document. *)
Theorem merge_with_flat_mapping (self : Merger) (la ra : attrs)
        (lm rm : entries) :
  data self = Mapping la lm ->
  distinct_keys lm -> distinct_keys rm ->
  Forall (fun kv => is_scalar (snd kv) = true) rm ->
  scan_for_anchors (Mapping ra rm) [] = [] ->
  exists lm',
    merge_with self (Mapping ra rm)
    = Merged {| data := Mapping la lm';
                config := prepare (config self)
                                  (delete_all_comments (Mapping ra rm)) |}
    /\ distinct_keys lm'
    /\ (forall key val,
           In (key, val) rm ->
           dict_get key_eqb key lm' = Some (delete_all_comments val))
    /\ (forall key,
           dict_has key_eqb key rm = false ->
           dict_get key_eqb key lm' = dict_get key_eqb key lm).
Proof.
  intros Hdata Hl Hr Hflat Hnone.
  unfold merge_with.
  assert (_resolve_anchor_conflicts self (delete_all_comments (Mapping ra rm))
          = ((data self, delete_all_comments (Mapping ra rm)), None)) as ->.
  { unfold _resolve_anchor_conflicts.
    rewrite (scan_for_anchors_strip_none _ Hnone). reflexivity. }
  cbn [fst snd]. rewrite Hdata.
  set (config' := prepare (config self) (delete_all_comments (Mapping ra rm))).
  cbn [delete_all_comments].
  set (rm' := map _ rm).
  assert (map entry_id rm' = map entry_id rm) as Hids.
  { unfold rm'. rewrite map_map. reflexivity. }
  assert (Forall (fun kv => is_scalar (snd kv) = true) rm') as Hflat'.
  { unfold rm'. clear -Hflat. induction Hflat as [|[k v] l Hv _ IH]; simpl.
    - constructor.
    - constructor; [|exact IH]. simpl in *. now destruct v. }
  assert (goes_deep config' (Mapping (strip_comment ra) rm') None None "")
    as Hdeep by (left; reflexivity).
  destruct (merge_dicts_loop_flat (_merge_dicts config') (_merge_lists config')
              (Mapping (strip_comment ra) rm') "" rm' lm [] 0 Hflat')
    as [lm' Hloop].
  assert (_merge_dicts config' (Mapping la lm) (Mapping (strip_comment ra) rm')
                       None None ""
          = Ok (Out (Mapping la lm') (Mapping la lm'))) as Hrun.
  { rewrite merge_dicts_deep_run by exact Hdeep. now rewrite Hloop. }
  rewrite Hrun. cbn [returned].
  assert (distinct_keys rm') as Hr' by (unfold distinct_keys; now rewrite Hids).
  destruct (merge_dicts_deep_facts _ _ _ _ _ _ _ _ _ Hdeep Hl Hr' Hrun)
    as (lm'' & [= <-] & Hnd & Hperm & Hkeep & Hnew & Hscalar & _).
  exists lm'. split; [reflexivity|]. split; [exact Hnd|]. split.
  - intros key val Hin.
    set (key' := Key (strip_comment (key_attrs key)) (key_value key)).
    rewrite (dict_get_key_value key key' lm' eq_refl).
    apply (merge_dicts_deep_lookup lm rm' lm' Hnd Hnew Hscalar).
    + unfold rm'. apply in_map_iff. exists (key, val). split; [reflexivity|exact Hin].
    + right. rewrite Forall_forall in Hflat.
      assert (is_scalar val = true) as Hval.
      { apply (Hflat (key, val)). now apply list_elem_of_In. }
      now destruct val.
  - intros key Hout.
    apply (merge_dicts_deep_untouched lm rm' lm' Hnd Hperm Hkeep).
    rewrite <- Hout. apply dict_has_ext. now rewrite Hids.
Qed.
End WholeMerge.

(** The statement at work: [{a: 1, b: 2}] and [{b: 3  # note, c: 4}]. *)
Lemma merge_with_flat_mapping_witness :
  let self := {| data := Doc.map [(Doc.key "a", Doc.int 1);
                                  (Doc.key "b", Doc.int 2)];
                 config := default_config AnchorConflictResolutions.ABORT |} in
  let lm := [(Doc.key "a", Doc.int 1); (Doc.key "b", Doc.int 2)] in
  let rm := [(Doc.key "b", Scalar (Attrs None (Some "note")) (PyInt 3));
             (Doc.key "c", Doc.int 4)] in
  distinct_keys lm /\ distinct_keys rm
  /\ exists lm',
      @merge_with sample_externals self (Mapping bare rm)
      = Merged {| data := Mapping bare lm';
                  config := @prepare sample_externals (config self)
                              (delete_all_comments (Mapping bare rm)) |}
      /\ distinct_keys lm'
      /\ (forall key val,
             In (key, val) rm ->
             dict_get key_eqb key lm' = Some (delete_all_comments val))
      /\ (forall key,
             dict_has key_eqb key rm = false ->
             dict_get key_eqb key lm' = dict_get key_eqb key lm).
Proof.
  intros self lm rm.
  assert (distinct_keys lm) as Hl by distinct_keys_by_computation.
  assert (distinct_keys rm) as Hr by distinct_keys_by_computation.
  split; [exact Hl|]. split; [exact Hr|].
  apply (@merge_with_flat_mapping sample_externals self bare bare lm rm);
    [reflexivity | exact Hl | exact Hr | repeat constructor | reflexivity].
Defined.

(** ** Which document the anchor pass may change *)

Section Sides.
Context `{Externals}.

Lemma resolve_conflict_sides (config : MergerConfig)
      (lhs_anchors rhs_anchors : adict) (docs docs' : Node * Node)
      (anchor : akey) :
  resolve_conflict config lhs_anchors rhs_anchors docs anchor = Ok docs' ->
  match anchor_merge_mode config with
  | AnchorConflictResolutions.RIGHT => snd docs' = snd docs
  | AnchorConflictResolutions.ABORT => docs' = docs
  | _ => fst docs' = fst docs
  end.
Proof.
  unfold resolve_conflict.
  destruct (anchor_item lhs_anchors anchor) as [prime_alias|f]; cbn [bind];
    [|discriminate].
  destruct (anchor_item rhs_anchors anchor) as [reader_alias|f]; cbn [bind];
    [|discriminate].
  destruct prime_alias as [a v| |]; try discriminate.
  destruct (negb (py_eq (Scalar a v) reader_alias)).
  - destruct (anchor_merge_mode config).
    + destruct (_calc_unique_anchor _ _); [|discriminate].
      intros [= <-]. reflexivity.
    + destruct (_overwrite_aliased_values _ _ _); cbn [bind]; [|discriminate].
      intros [= <-]. reflexivity.
    + destruct (_overwrite_aliased_values _ _ _); cbn [bind]; [|discriminate].
      intros [= <-]. reflexivity.
    + discriminate.
  - intros [= <-]. now destruct (anchor_merge_mode config).
Qed.

Lemma resolve_loop_sides (config : MergerConfig)
      (lhs_anchors rhs_anchors : adict) (conflicts : list akey) :
  forall docs,
    let docs' :=
      fst (resolve_loop config lhs_anchors rhs_anchors conflicts docs) in
    match anchor_merge_mode config with
    | AnchorConflictResolutions.RIGHT => snd docs' = snd docs
    | AnchorConflictResolutions.ABORT => docs' = docs
    | _ => fst docs' = fst docs
    end.
Proof.
  induction conflicts as [|anchor conflicts IH]; intros docs;
    cbn [resolve_loop].
  - cbn. now destruct (anchor_merge_mode config).
  - destruct (resolve_conflict config lhs_anchors rhs_anchors docs anchor)
      as [docs1|f] eqn:E.
    + apply resolve_conflict_sides in E. specialize (IH docs1). cbn zeta in *.
      destruct (anchor_merge_mode config); congruence.
    + cbn. now destruct (anchor_merge_mode config).
Qed.

(** X21.  Each conflict mode keeps its hands off one of the two
    documents.  Whether the anchor pass completes or stops at a failure,
    the documents it leaves are such that: under RENAME and under LEFT
    the accumulated document is as it was; under RIGHT the incoming
    document is as it was; under ABORT both are. *)
Theorem resolve_anchor_conflicts_sides (self : Merger) (rhs : Node) :
  let docs := fst (_resolve_anchor_conflicts self rhs) in
  match anchor_merge_mode (config self) with
  | AnchorConflictResolutions.RIGHT => snd docs = rhs
  | AnchorConflictResolutions.ABORT => docs = (data self, rhs)
  | _ => fst docs = data self
  end.
Proof.
  unfold _resolve_anchor_conflicts.
  exact (resolve_loop_sides (config self) _ _ _ (data self, rhs)).
Qed.
End Sides.

(** X22.  Renaming an anchor the document does not use changes nothing:
    when none of the anchors [rename_anchor] looks at is the old name,
    the document comes back as it was. *)
Theorem rename_anchor_unused (dom : Node) (old new : akey) :
  ~ In (Some old) (rename_sites dom) ->
  rename_anchor dom old new = dom.
Proof.
  assert (forall a, anchor_attr a <> Some old -> rename_attrs old new a = a)
    as Hattrs.
  { intros a Ha. unfold rename_attrs, anchor_is.
    destruct (anchor_attr a) as [v|]; [|reflexivity].
    destruct (akey_eqb v old) eqn:E; [|reflexivity].
    apply akey_eqb_eq in E. congruence. }
  induction dom as [a v|a l IH|a m IH] using Node_nested_ind; simpl;
    intros Hfree.
  - rewrite Hattrs; [reflexivity|]. intros E. apply Hfree. now left.
  - f_equal.
    induction IH as [|x l Hx _ IHl]; simpl; [reflexivity|].
    simpl in Hfree. rewrite in_app_iff in Hfree.
    rewrite Hx, IHl; [reflexivity| |]; intros Hin; apply Hfree; auto.
  - f_equal.
    induction IH as [|[k x] m Hx _ IHm]; simpl; [reflexivity|].
    simpl in Hx, Hfree.
    rewrite !Hattrs.
    + rewrite Hx, IHm.
      * rewrite with_attrs_own. now destruct k.
      * intros Hin. apply Hfree. right. right. apply in_or_app. now right.
      * intros Hin. apply Hfree. right. right. apply in_or_app. now left.
    + intros E. apply Hfree. right. now left.
    + intros E. apply Hfree. now left.
Qed.

(** The statement at work: the document uses [A] and [K], not [B]. *)
Lemma rename_anchor_unused_witness :
  ~ In (Some (Some "B")) (rename_sites commented_doc)
  /\ rename_anchor commented_doc (Some "B") (Some "C") = commented_doc.
Proof.
  assert (~ In (Some (Some "B")) (rename_sites commented_doc)) as Hfree.
  { simpl. intuition discriminate. }
  split; [exact Hfree|].
  exact (rename_anchor_unused commented_doc (Some "B") (Some "C") Hfree).
Defined.

(** ** A UNIQUE list merge, run twice *)

Lemma unique_additions_all_in (rl : list Node) :
  forall ll,
    (forall ele, In ele rl -> py_in ele ll = true) ->
    unique_additions ll rl = [].
Proof.
  induction rl as [|x rl IH]; intros ll Hall; simpl; [reflexivity|].
  rewrite (Hall x) by now left. apply IH. intros ele Hin. apply Hall. now right.
Qed.

Lemma py_in_scalar_self (ele : Node) (l : list Node) :
  is_scalar ele = true -> In ele l -> py_in ele l = true.
Proof.
  intros Hs Hin. unfold py_in. apply existsb_exists. exists ele.
  split; [exact Hin|]. destruct ele as [a v| |]; try discriminate.
  simpl. apply scalar_eqb_norm. reflexivity.
Qed.

(** X23.  A UNIQUE merge of a list of scalars adds nothing the second
    time: after the merge, the same merge run again on the target it
    left gives that very target back. *)
Theorem merge_simple_lists_unique_idempotent (config : MergerConfig)
        (la ra : attrs) (ll rl : list Node) (node_coord : NodeCoords)
        (path : string) (r : outcome) :
  array_merge_mode config node_coord = ArrayMergeOpts.UNIQUE ->
  Forall (fun ele => is_scalar ele = true) rl ->
  _merge_simple_lists config (Sequence la ll) (Sequence ra rl) node_coord path
  = Ok r ->
  _merge_simple_lists config (lhs_after r) (Sequence ra rl) node_coord path
  = Ok r.
Proof.
  intros Hmode Hflat. unfold _merge_simple_lists. rewrite Hmode.
  destruct rl as [|x rl'].
  - intros [= <-]. reflexivity.
  - cbn beta iota zeta. rewrite simple_lists_loop_unique.
    intros Hrun.
    assert (r = Out (Sequence la (ll ++ unique_additions ll (x :: rl')))
                    (Sequence la (ll ++ unique_additions ll (x :: rl'))))
      as -> by congruence.
    cbn [lhs_after].
    rewrite simple_lists_loop_unique.
    rewrite (unique_additions_all_in (x :: rl')
               (ll ++ unique_additions ll (x :: rl'))).
    + now rewrite app_nil_r.
    + intros ele Hin.
      destruct (unique_additions_covers (x :: rl') ll ele Hin)
        as [Hkept|Hthere];
        [|exact Hthere].
      rewrite py_in_app. apply orb_true_iff. right.
      apply py_in_scalar_self; [|exact Hkept].
      rewrite Forall_forall in Hflat. apply Hflat. now apply list_elem_of_In.
Qed.

(** The statement at work: [[1]] with [[2, 1, 2, 3]], twice. *)
Lemma merge_simple_lists_unique_idempotent_witness :
  let incoming := Doc.seq [Doc.int 2; Doc.int 1; Doc.int 2; Doc.int 3] in
  let merged := Doc.seq [Doc.int 1; Doc.int 2; Doc.int 3] in
  array_merge_mode unique_lists_config (root_coords incoming)
  = ArrayMergeOpts.UNIQUE
  /\ _merge_simple_lists unique_lists_config merged incoming
       (root_coords incoming) ""
     = Ok (Out merged merged).
Proof.
  intros incoming merged. split; [reflexivity|].
  apply (merge_simple_lists_unique_idempotent unique_lists_config bare bare
           [Doc.int 1] [Doc.int 2; Doc.int 1; Doc.int 2; Doc.int 3]
           (root_coords incoming) "" (Out merged merged));
    [reflexivity | repeat constructor | reflexivity].
Defined.

(** ** The RENAME pass as a whole *)

(** *** Renaming as a rewriting of anchors *)










Lemma with_attrs_twice (a b : attrs) (n : Node) :
  with_attrs a (with_attrs b n) = with_attrs a n.
Proof. destruct n; reflexivity. Qed.

Section RenameRewrite.
Variables old new : akey.








End RenameRewrite.



Section RenamePass.
Context `{Externals}.




End RenamePass.


